(** * grpctest: an in-memory gRPC test server

    A shallow embedding of [server.go] (package [grpctest]): the
    process-wide default buffer size, the [Server] lifecycle
    ([NewServer], [Serve], [Err], [Close]) and the client connection
    factory ([ClientConn], [ClientConnContext]).

    The package is a thin layer over three collaborators that are not part
    of it: [sync] / [sync/atomic], [google.golang.org/grpc] (with
    [bufconn]) and [context].  Their documented behaviour is modelled just
    far enough for the package's own code to be written down statement by
    statement; every such definition says which library call it stands
    for. *)

From stdpp Require Import base numbers list strings.

Set Default Proof Using "Type".
Open Scope Z_scope.

(** ** Go integers

    [int] is taken to be 64 bits wide (amd64, arm64); [int32(x)] keeps the
    low 32 bits, read as a two's complement number. *)

Definition int_min : Z := - 2 ^ 63.
Definition int_max : Z := 2 ^ 63 - 1.
Definition is_int (z : Z) : Prop := int_min <= z <= int_max.

Definition int32_min : Z := - 2 ^ 31.
Definition int32_max : Z := 2 ^ 31 - 1.

(** The conversion [int32(size)]. *)
Definition to_int32 (z : Z) : Z := (z + 2 ^ 31) mod 2 ^ 32 - 2 ^ 31.

(** The conversion [int(v)] of an [int32] value: value preserving. *)
Definition int_of_int32 (v : Z) : Z := v.

(** ** Errors and outcomes *)

(** The two errors of package [context]. *)
Inductive ctx_error : Type :=
  | Canceled                      (* context.Canceled *)
  | DeadlineExceeded.             (* context.DeadlineExceeded *)

(** Error values seen by the package; Go's [nil] error is [None]. *)
Inductive error : Type :=
  | ErrServerStopped              (* grpc.ErrServerStopped *)
  | ErrListenerClosed             (* bufconn: Accept on a closed listener *)
  | ErrTransport (code : nat)     (* any other fatal Accept error *)
  | ErrNewClient (code : nat)     (* grpc.NewClient rejected the options *)
  | ErrContext (e : ctx_error).   (* what Context.Err reports *)

(** A call on a state [S] either returns a value or panics; either way it
    leaves a state behind. *)
Inductive outcome (A S : Type) : Type :=
  | Returns (a : A) (s : S)
  | Panics (msg : string) (s : S).
Arguments Returns {A S} a s.
Arguments Panics {A S} msg s.

(** ** The buffered listener ([bufconn.Listener]) *)

Record Listener : Type := mkListener {
  sz : Z;            (* capacity of every pipe it hands out, fixed by Listen *)
  done : bool        (* the [done] channel has been closed *)
}.

(** [bufconn.Listen(sz)]. *)
Definition Listen (size : Z) : Listener := mkListener size false.

(** [Listener.Close]: closes [done] unless it already is; never fails. *)
Definition Listener_Close (l : Listener) : Listener := mkListener (sz l) true.

(** ** The server *)

Inductive ServerOption : Type :=
  | MaxRecvMsgSize (n : Z)
  | UnaryInterceptor (id : nat).

(** Where the goroutine started by [Serve] stands:
<<
    go func() {
        s.serveErr = s.Server.Serve(s.listener)   // Spawned, Serving
        close(s.serveDone)                        // Closing
    }()                                           // Exited
>> *)
Inductive Task : Type :=
  | NotSpawned
  | Spawned
  | Serving
  | Closing
  | Exited.

(** What has happened to a server, oldest first. *)
Inductive Event : Type :=
  | EvSpawn                           (* the [go] statement ran *)
  | EvStop                            (* grpc's Stop was called *)
  | EvListenerClose                   (* s.listener.Close() was called *)
  | EvServeReturn (e : option error)  (* grpc's Serve returned e *)
  | EvDone.                           (* close(s.serveDone) *)

Record Server : Type := mkServer {
  sopts : list ServerOption;   (* the embedded *grpc.Server: its options *)
  quit : bool;                 (*   ... and its quit event, fired by Stop *)
  listener : Listener;
  once : bool;                 (* sync.Once: has Do already run? *)
  serveErr : option error;
  serveDone : bool;            (* true once the channel is closed *)
  task : Task;                 (* the goroutine of Serve *)
  history : list Event         (* ghost: what happened so far *)
}.

Definition record (ev : Event) (s : Server) : Server :=
  mkServer (sopts s) (quit s) (listener s) (once s) (serveErr s)
           (serveDone s) (task s) (history s ++ [ev]).

Definition set_task (t : Task) (s : Server) : Server :=
  mkServer (sopts s) (quit s) (listener s) (once s) (serveErr s)
           (serveDone s) t (history s).

Definition set_listener (l : Listener) (s : Server) : Server :=
  mkServer (sopts s) (quit s) l (once s) (serveErr s)
           (serveDone s) (task s) (history s).

Definition set_quit (s : Server) : Server :=
  mkServer (sopts s) true (listener s) (once s) (serveErr s)
           (serveDone s) (task s) (history s).

Definition set_once (s : Server) : Server :=
  mkServer (sopts s) (quit s) (listener s) true (serveErr s)
           (serveDone s) (task s) (history s).

Definition set_serveErr (e : option error) (s : Server) : Server :=
  mkServer (sopts s) (quit s) (listener s) (once s) e
           (serveDone s) (task s) (history s).

Definition close_serveDone (s : Server) : Server :=
  mkServer (sopts s) (quit s) (listener s) (once s) (serveErr s)
           true (task s) (history s).

(** ** Configuration: the package variable [bufferSize] *)

Record Process : Type := mkProcess {
  bufferSize : Z;            (* var bufferSize int32 *)
  servers : list Server      (* the heap of *Server, addressed by index *)
}.

(** The process as the package is loaded: [bufferSize = 1 << 20]. *)
Definition initial : Process := mkProcess (1 ≪ 20) [].

Definition SetBufferSize (size : Z) (p : Process) : outcome unit Process :=
  if size <=? 0
  then Panics "grpctest: buffer size must be positive" p
  else Returns () (mkProcess (to_int32 size) (servers p)).

Definition getBufferSize (p : Process) : Z := int_of_int32 (bufferSize p).

(** ** Lifecycle *)

(** [NewServer(opts...)] as a value: the fields of the composite literal. *)
Definition newServer (opts : list ServerOption) (p : Process) : Server :=
  mkServer opts false (Listen (getBufferSize p)) false None false
           NotSpawned [].

(** [NewServer(opts...)]: allocates the server and returns its address. *)
Definition NewServer (opts : list ServerOption) (p : Process)
  : nat * Process :=
  (length (servers p),
   mkProcess (bufferSize p) (servers p ++ [newServer opts p])).

(** [Serve]: [sync.Once.Do] runs its argument on the first call only, and
    callers are serialised on the Once, so the whole call is one step.  The
    argument is the [go] statement. *)
Definition Serve (s : Server) : Server :=
  if once s then s
  else record EvSpawn (set_task Spawned (set_once s)).

(** [Err]: the receive on [serveDone] only completes once the channel is
    closed; [None] is a caller that is still blocked. *)
Definition Err (s : Server) : option (option error) :=
  if serveDone s then Some (serveErr s) else None.

(** [grpc.Server.Stop]: fires the quit event and closes the listeners
    the server is serving on. *)
Definition Stop (s : Server) : Server :=
  let s := set_quit s in
  let s := match task s with
           | Serving => set_listener (Listener_Close (listener s)) s
           | _ => s
           end in
  record EvStop s.

(** [s.listener.Close()]. *)
Definition closeListener (s : Server) : Server :=
  record EvListenerClose (set_listener (Listener_Close (listener s)) s).

(** [Close]. *)
Definition Close (s : Server) : Server :=
  let s := Stop s in
  closeListener s.

(** What the accept loop of [grpc.Server.Serve] does next: return [nil]
    once the server was stopped, return the error of a failed Accept
    otherwise ([fault] is a fatal error the transport raises by itself),
    and keep blocking ([None]) while neither happened. *)
Definition accept_loop (fault : option error) (s : Server)
  : option (option error) :=
  if quit s then Some None
  else if done (listener s) then Some (Some ErrListenerClosed)
  else match fault with
       | Some e => Some (Some e)
       | None => None
       end.

(** [s.serveErr = <result of Serve>]; Serve closes its listener on return. *)
Definition serve_returned (e : option error) (s : Server) : Server :=
  let s := set_listener (Listener_Close (listener s)) s in
  let s := record (EvServeReturn e) s in
  set_task Closing (set_serveErr e s).

(** One step of the goroutine started by [Serve]. *)
Definition task_step (fault : option error) (s : Server) : Server :=
  match task s with
  | NotSpawned => s
  | Spawned =>
      (* entering grpc's Serve: after Stop it returns ErrServerStopped *)
      if quit s then serve_returned (Some ErrServerStopped) s
      else set_task Serving s
  | Serving =>
      match accept_loop fault s with
      | Some e => serve_returned e s
      | None => s
      end
  | Closing => record EvDone (set_task Exited (close_serveDone s))
  | Exited => s
  end.

(** Everything that can happen to one server: calls made by any goroutine
    of the test, and steps of the server's own goroutine.  [Close] is not
    atomic, so its two halves are actions of their own. *)
Inductive Op : Type :=
  | OpServe
  | OpStop
  | OpListenerClose
  | OpClose
  | OpTask (fault : option error).

Definition step (s : Server) (o : Op) : Server :=
  match o with
  | OpServe => Serve s
  | OpStop => Stop s
  | OpListenerClose => closeListener s
  | OpClose => Close s
  | OpTask fault => task_step fault s
  end.

(** An interleaving of such actions, run from [s]. *)
Definition run (ops : list Op) (s : Server) : Server :=
  fold_left step ops s.

(** Observations on a history. *)
Definition is_spawn (ev : Event) : bool :=
  match ev with EvSpawn => true | _ => false end.

Definition is_done (ev : Event) : bool :=
  match ev with EvDone => true | _ => false end.

Fixpoint count (f : Event -> bool) (h : list Event) : nat :=
  match h with
  | [] => O
  | ev :: h => if f ev then S (count f h) else count f h
  end.

(** How many goroutines [Serve] has spawned. *)
Definition spawns (s : Server) : nat := count is_spawn (history s).

(** How many times [serveDone] was closed. *)
Definition firings (s : Server) : nat := count is_done (history s).

(** The errors grpc's Serve has returned, oldest first. *)
Fixpoint returned (h : list Event) : list (option error) :=
  match h with
  | [] => []
  | EvServeReturn e :: h => e :: returned h
  | _ :: h => returned h
  end.

(** How many of the actions are calls of [Serve]. *)
Fixpoint serve_calls (ops : list Op) : nat :=
  match ops with
  | [] => O
  | OpServe :: ops => S (serve_calls ops)
  | _ :: ops => serve_calls ops
  end.

(** Everything that can happen to the process: the package-level calls, and
    the actions above on the server at address [h]. *)
Inductive POp : Type :=
  | PSetBufferSize (size : Z)
  | PNewServer (opts : list ServerOption)
  | POn (h : nat) (o : Op).

Definition pstep (p : Process) (o : POp) : outcome unit Process :=
  match o with
  | PSetBufferSize size => SetBufferSize size p
  | PNewServer opts => Returns () (snd (NewServer opts p))
  | POn h o =>
      Returns () (mkProcess (bufferSize p)
                            (alter (fun s => step s o) h (servers p)))
  end.

(** The state an outcome leaves behind. *)
Definition final {A S} (o : outcome A S) : S :=
  match o with
  | Returns _ s => s
  | Panics _ s => s
  end.

(** A run stops at the first panic. *)
Fixpoint prun (ops : list POp) (p : Process) : outcome unit Process :=
  match ops with
  | [] => Returns () p
  | o :: ops =>
      match pstep p o with
      | Returns _ p' => prun ops p'
      | Panics msg p' => Panics msg p'
      end
  end.

(** ** Contexts

    Time is counted in nanoseconds.  A context is described by the moment
    its [Done] channel closes, if ever, and by the error [Err] reports from
    then on. *)

Definition Second : Z := 1000000000.

Record Context : Type := mkContext {
  done_at : option (Z * ctx_error)
}.

(** [context.Background()]: no deadline, never cancelled. *)
Definition Background : Context := mkContext None.

(** [ctx.Err()] read at time [t]. *)
Definition Context_Err (ctx : Context) (t : Z) : option error :=
  match done_at ctx with
  | Some (td, e) => if td <=? t then Some (ErrContext e) else None
  | None => None
  end.

(** [context.WithTimeout(parent, d)] called at time [now]: done when the
    parent is, and at [now + d] at the latest. *)
Definition WithTimeout (parent : Context) (now d : Z) : Context :=
  match done_at parent with
  | Some (tp, _) =>
      if tp <=? now + d then parent
      else mkContext (Some (now + d, DeadlineExceeded))
  | None => mkContext (Some (now + d, DeadlineExceeded))
  end.

(** ** Dial options ([grpc.DialOption]) *)

Inductive Credentials : Type :=
  | Insecure                 (* insecure.NewCredentials() *)
  | TLS (id : nat).

Inductive Dialer : Type :=
  | BufconnDialer (srv : nat)   (* the closure returning s.listener.Dial() *)
  | CustomDialer (id : nat).    (* any dialer of the caller *)

(** The part of grpc's [dialOptions] that the options below write to. *)
Record dialOptions : Type := mkDialOptions {
  creds : option Credentials;     (* copts.TransportCredentials *)
  dialer : option Dialer;         (* copts.Dialer *)
  unaryInt : option nat;          (* unaryInt *)
  chainUnaryInts : list nat;      (* chainUnaryInts *)
  maxCallRecvMsgSize : option Z   (* a default call option *)
}.

Definition defaultDialOptions : dialOptions :=
  mkDialOptions None None None [] None.

(** A [DialOption] is a function applied to the [dialOptions]. *)
Definition DialOption : Type := dialOptions -> dialOptions.

Definition WithTransportCredentials (c : Credentials) : DialOption :=
  fun o => mkDialOptions (Some c) (dialer o) (unaryInt o)
                         (chainUnaryInts o) (maxCallRecvMsgSize o).

Definition WithContextDialer (d : Dialer) : DialOption :=
  fun o => mkDialOptions (creds o) (Some d) (unaryInt o)
                         (chainUnaryInts o) (maxCallRecvMsgSize o).

Definition WithUnaryInterceptor (i : nat) : DialOption :=
  fun o => mkDialOptions (creds o) (dialer o) (Some i)
                         (chainUnaryInts o) (maxCallRecvMsgSize o).

Definition WithChainUnaryInterceptor (ints : list nat) : DialOption :=
  fun o => mkDialOptions (creds o) (dialer o) (unaryInt o)
                         (chainUnaryInts o ++ ints) (maxCallRecvMsgSize o).

Definition WithMaxCallRecvMsgSize (n : Z) : DialOption :=
  fun o => mkDialOptions (creds o) (dialer o) (unaryInt o)
                         (chainUnaryInts o) (Some n).

(** grpc applies the options in the order they are given. *)
Definition applyOptions (opts : list DialOption) (o : dialOptions)
  : dialOptions :=
  fold_left (fun o opt => opt o) opts o.

(** ** Client connections ([grpc.ClientConn]) *)

Inductive State : Type :=
  | Idle
  | Connecting
  | Ready
  | TransientFailure
  | Shutdown.

#[global] Instance State_eq_dec : EqDecision State.
Proof. solve_decision. Defined.

Record grpcClientConn : Type := mkClientConn {
  target : string;
  dopts : dialOptions;
  state : State;                 (* the connectivity state *)
  pending : list (Z * State);    (* the state changes to come, and when *)
  closed : bool                  (* Close was called on it *)
}.

(** The clock and the heap of connections, addressed by index. *)
Record World : Type := mkWorld {
  clock : Z;
  conns : list grpcClientConn
}.

(** What grpc does that the package does not decide. *)
Record Runtime : Type := mkRuntime {
  rt_check : dialOptions -> option nat;  (* NewClient: what is wrong with the options? *)
  rt_future : list (Z * State);  (* state changes of a connection that left idle *)
  rt_select : Z -> bool          (* select with both cases ready: take Done? *)
}.

(** Calls that read or change the world; [None] is a call that never
    returns. *)
Definition M (A : Type) : Type := World -> option (outcome A World).

Definition ret {A} (a : A) : M A := fun w => Some (Returns a w).

Definition bind {A B} (m : M A) (k : A -> M B) : M B :=
  fun w =>
    match m w with
    | Some (Returns a w') => k a w'
    | Some (Panics msg w') => Some (Panics msg w')
    | None => None
    end.

Notation "'do' x <- m ; k" := (bind m (fun x => k))
  (at level 10, x pattern, m at level 100, k at level 200).

Definition nil_dereference : string :=
  "invalid memory address or nil pointer dereference".

(** Dereferencing a connection pointer. *)
Definition deref (conn : option nat) : M (nat * grpcClientConn) :=
  fun w =>
    match conn with
    | Some c =>
        match conns w !! c with
        | Some cc => Some (Returns (c, cc) w)
        | None => Some (Panics nil_dereference w)
        end
    | None => Some (Panics nil_dereference w)
    end.

Definition store (c : nat) (cc : grpcClientConn) : M unit :=
  fun w => Some (Returns () (mkWorld (clock w) (<[c := cc]> (conns w)))).

Definition advance_to (t : Z) : M unit :=
  fun w => Some (Returns () (mkWorld (Z.max (clock w) t) (conns w))).

Definition now : M Z := fun w => Some (Returns (clock w) w).

Definition blocked {A} : M A := fun _ => None.

(** [grpc.NewClient(target, opts...)]: no I/O; the connection starts idle. *)
Definition NewClient (rt : Runtime) (tgt : string) (opts : list DialOption)
  : M (option nat * option error) :=
  fun w =>
    let o := applyOptions opts defaultDialOptions in
    match rt_check rt o with
    | Some code => Some (Returns (None, Some (ErrNewClient code)) w)
    | None =>
        Some (Returns (Some (length (conns w)), None)
                (mkWorld (clock w)
                         (conns w ++ [mkClientConn tgt o Idle [] false])))
    end.

(** [conn.Connect()]: an idle connection starts connecting, after which
    its state changes as the runtime has it; does not wait. *)
Definition Connect (rt : Runtime) (conn : option nat) : M unit :=
  do (c, cc) <- deref conn;
  match state cc with
  | Idle =>
      store c (mkClientConn (target cc) (dopts cc) (state cc)
                            (rt_future rt) (closed cc))
  | _ => ret ()
  end.

(** [conn.GetState()]. *)
Definition GetState (conn : option nat) : M State :=
  do (_, cc) <- deref conn;
  ret (state cc).

(** [conn.Close()]. *)
Definition ClientConn_Close (conn : option nat) : M unit :=
  do (c, cc) <- deref conn;
  store c (mkClientConn (target cc) (dopts cc) Shutdown [] true).

(** In a [select] between [ctx.Done()], ready at [td], and a state change,
    ready at [tc], entered at [t]: is Done the case taken? *)
Definition done_first (rt : Runtime) (t td tc : Z) : bool :=
  (Z.max t td <? Z.max t tc)
  || ((Z.max t td =? Z.max t tc) && rt_select rt t).

(** [conn.WaitForStateChange(ctx, sourceState)]: true at once when the
    state is not [sourceState]; otherwise waits for the next state change
    (true) or for [ctx] to be done (false), whichever comes first. *)
Definition WaitForStateChange (rt : Runtime) (conn : option nat)
    (ctx : Context) (sourceState : State) : M bool :=
  do (c, cc) <- deref conn;
  if decide (state cc = sourceState) then
    do t <- now;
    match pending cc, done_at ctx with
    | [], None => blocked
    | [], Some (td, _) =>
        do _ <- advance_to td; ret false
    | (tc, s') :: rest, None =>
        do _ <- advance_to tc;
        do _ <- store c (mkClientConn (target cc) (dopts cc) s' rest (closed cc));
        ret true
    | (tc, s') :: rest, Some (td, _) =>
        if done_first rt t td tc then
          do _ <- advance_to td; ret false
        else
          do _ <- advance_to tc;
          do _ <- store c (mkClientConn (target cc) (dopts cc) s' rest (closed cc));
          ret true
    end
  else ret true.

(** ** The connection factory *)

(** The option list handed to [grpc.NewClient]. *)
Definition dialOpts (s : nat) (opts : list DialOption) : list DialOption :=
  let opts := [WithTransportCredentials Insecure] ++ opts in
  let opts := opts ++ [WithContextDialer (BufconnDialer s)] in
  opts.

(** The [for] loop; [fuel] bounds the number of iterations run. *)
Fixpoint readyLoop (fuel : nat) (rt : Runtime) (conn : option nat)
    (connCtx : Context) : M (option nat * option error) :=
  match fuel with
  | O => blocked
  | S fuel =>
      do st <- GetState conn;
      if decide (st = Ready) then ret (conn, None)
      else
        do changed <- WaitForStateChange rt conn connCtx st;
        if negb changed then
          do t <- now;
          ret (None, Context_Err connCtx t)
        else readyLoop fuel rt conn connCtx
  end.

(** [ClientConnContext]; [s] is the address of the server.  The deferred
    [cancel] runs after the results are evaluated and touches neither the
    connection nor the results. *)
Definition ClientConnContext (fuel : nat) (rt : Runtime) (s : nat)
    (ctx : Context) (opts : list DialOption)
  : M (option nat * option error) :=
  let opts := dialOpts s opts in
  do (conn, err) <- NewClient rt "passthrough:///test" opts;
  match err with
  | Some e => ret (None, Some e)
  | None =>
      do _ <- Connect rt conn;
      do t <- now;
      let connCtx := WithTimeout ctx t (5 * Second) in
      readyLoop fuel rt conn connCtx
  end.

(** [ClientConn]. *)
Definition ClientConn (fuel : nat) (rt : Runtime) (s : nat)
    (opts : list DialOption) : M (option nat * option error) :=
  ClientConnContext fuel rt s Background opts.

(** ** The lifecycle invariant

    What holds of a server however the calls on it and the steps of its
    goroutine interleave. *)

Definition spawned (t : Task) : bool :=
  match t with NotSpawned => false | _ => true end.

Definition exited (t : Task) : bool :=
  match t with Exited => true | _ => false end.

Record Inv (s : Server) : Prop := mkInv {
  inv_once : once s = spawned (task s);
  inv_spawns : spawns s = if once s then 1%nat else 0%nat;
  inv_done : serveDone s = exited (task s);
  inv_firings : firings s = if serveDone s then 1%nat else 0%nat;
  inv_returned :
    returned (history s) =
    match task s with
    | Closing | Exited => [serveErr s]
    | _ => []
    end
}.

(** How many of the actions are steps of the server's goroutine. *)
Fixpoint task_steps (ops : list Op) : nat :=
  match ops with
  | [] => O
  | OpTask _ :: ops => S (task_steps ops)
  | _ :: ops => task_steps ops
  end.

(** The steps the goroutine of a stopped server still has to take. *)
Definition steps_left (t : Task) : nat :=
  match t with
  | NotSpawned => 0
  | Spawned => 2
  | Serving => 2
  | Closing => 1
  | Exited => 0
  end.

(** A server stopped while its goroutine was inside grpc's Serve. *)
Definition stopped_while_serving (s : Server) : Prop :=
  quit s = true /\ once s = true /\
  match task s with
  | Serving => serveDone s = false
  | Closing => serveErr s = None /\ serveDone s = false
  | Exited => serveErr s = None
  | _ => False
  end.

(** A server stopped before its goroutine, if any, entered grpc's Serve. *)
Definition stopped_before_serving (s : Server) : Prop :=
  quit s = true /\
  match task s with
  | NotSpawned => serveDone s = false
  | Spawned => once s = true /\ serveDone s = false
  | Closing =>
      once s = true /\ serveErr s = Some ErrServerStopped /\
      serveDone s = false
  | Exited => once s = true /\ serveErr s = Some ErrServerStopped
  | Serving => False
  end.

Ltac lifecycle_cases :=
  repeat match goal with
         | |- context [match ?t with NotSpawned => _ | _ => _ end] =>
             destruct t
         | |- context [if ?b then _ else _] => destruct b
         | |- context [match ?f with Some _ => _ | None => _ end] =>
             destruct f
         end.

(** ** Test cleanup ([testing.TB])

    Of a test, the package uses only [Cleanup]: the registered functions
    are called when the test ends, last added first. *)

(** A call on the server at address [h]. *)
Definition on_server (h : nat) (f : Server -> Server) (p : Process)
  : Process :=
  mkProcess (bufferSize p) (alter f h (servers p)).

Record TB : Type := mkTB {
  cleanups : list (Process -> Process)   (* most recently added first *)
}.

(** [t.Cleanup(f)]. *)
Definition Cleanup (f : Process -> Process) (t : TB) : TB :=
  mkTB (f :: cleanups t).

(** [CloseOnCleanup]; the method value [s.Close] closes whatever the server
    at [s] is by the time it is called. *)
Definition CloseOnCleanup (s : nat) (t : TB) : TB :=
  Cleanup (on_server s Close) t.

(** The end of the test: the registered functions run, last added first. *)
Definition runCleanups (t : TB) (p : Process) : Process :=
  fold_left (fun p f => f p) (cleanups t) p.

(** ** Kinds of runs *)

(** Runs a user of the package can produce on a transport that does not
    fail: no fault in the accept loop, and the listener is closed by
    [Close] only, that is after a stop ([stopped]: one has happened). *)
Fixpoint by_api (stopped : bool) (ops : list Op) : bool :=
  match ops with
  | [] => true
  | OpServe :: ops => by_api stopped ops
  | OpStop :: ops => by_api true ops
  | OpClose :: ops => by_api true ops
  | OpListenerClose :: ops => stopped && by_api stopped ops
  | OpTask None :: ops => by_api stopped ops
  | OpTask (Some _) :: ops => false
  end.

(** Every size given to [SetBufferSize] fits an [int32]. *)
Fixpoint sizes_fit (ops : list POp) : bool :=
  match ops with
  | [] => true
  | PSetBufferSize size :: ops => (size <=? int32_max) && sizes_fit ops
  | _ :: ops => sizes_fit ops
  end.

(** Some action of the run is on the server at [h]. *)
Fixpoint touches (h : nat) (ops : list POp) : bool :=
  match ops with
  | [] => false
  | POn h' _ :: ops => bool_decide (h' = h) || touches h ops
  | _ :: ops => touches h ops
  end.

(** The clock after waiting for each of the state changes in turn. *)
Definition latest (t : Z) (changes : list (Z * State)) : Z :=
  fold_left (fun t change => Z.max t (fst change)) changes t.

(** What holds of a server driven through the package on a transport that
    does not fail. *)
Definition healthy (stopped : bool) (s : Server) : Prop :=
  Inv s /\
  (stopped = true -> quit s = true) /\
  (done (listener s) = true ->
   quit s = true \/ task s = Closing \/ task s = Exited) /\
  (serveErr s = None \/ serveErr s = Some ErrServerStopped).

(** * Properties *)

(** ** Histories *)

Lemma count_app f h1 h2 : count f (h1 ++ h2) = (count f h1 + count f h2)%nat.
Proof.
  induction h1 as [|ev h1 IH]; simpl; [done|].
  destruct (f ev); lia.
Qed.

Lemma returned_app h1 h2 : returned (h1 ++ h2) = returned h1 ++ returned h2.
Proof.
  induction h1 as [|ev h1 IH]; simpl; [done|].
  destruct ev; simpl; by rewrite ?IH.
Qed.

Lemma run_app ops1 ops2 s : run (ops1 ++ ops2) s = run ops2 (run ops1 s).
Proof. apply fold_left_app. Qed.

Lemma Inv_newServer opts p : Inv (newServer opts p).
Proof. by split. Qed.

Lemma Inv_step s o : Inv s -> Inv (step s o).
Proof.
  destruct s as [so q [cap d] on err dn t h].
  intros [H1 H2 H3 H4 H5]; unfold spawns, firings in *; simpl in *.
  destruct o as [| | | |fault]; destruct t; simpl in *; subst;
    unfold Serve, Stop, closeListener, Close, Stop, task_step, accept_loop,
      serve_returned; simpl;
    lifecycle_cases;
    split; unfold spawns, firings; simpl;
    rewrite ?count_app, ?returned_app, ?H2, ?H4, ?H5; simpl;
    try done; try lia.
Qed.

Lemma Inv_run ops s : Inv s -> Inv (run ops s).
Proof.
  revert s; induction ops as [|o ops IH]; intros s H; simpl; [done|].
  by apply IH, Inv_step.
Qed.

Lemma once_step s o :
  once (step s o) = match o with OpServe => true | _ => once s end.
Proof.
  destruct s as [so q [cap d] on err dn t h], o as [| | | |fault]; simpl;
    unfold Serve, Stop, closeListener, Close, Stop, task_step, accept_loop,
      serve_returned; simpl; lifecycle_cases; done.
Qed.

Lemma once_run ops s :
  once (run ops s) = once s || bool_decide (0 < serve_calls ops)%nat.
Proof.
  revert s; induction ops as [|o ops IH]; intros s; simpl.
  - by rewrite orb_false_r.
  - rewrite IH, once_step. destruct o; simpl; try done.
    by rewrite orb_true_r.
Qed.

Lemma history_step s o : exists evs, history (step s o) = history s ++ evs.
Proof.
  destruct s as [so q [cap d] on err dn t h], o as [| | | |fault]; simpl;
    unfold Serve, Stop, closeListener, Close, Stop, task_step, accept_loop,
      serve_returned; simpl; lifecycle_cases; simpl;
    rewrite <- ?app_assoc; eauto using app_nil_r.
Qed.

Lemma history_run ops s : exists evs, history (run ops s) = history s ++ evs.
Proof.
  revert s; induction ops as [|o ops IH]; intros s; simpl.
  - exists []. by rewrite app_nil_r.
  - destruct (IH (step s o)) as [evs2 ->].
    destruct (history_step s o) as [evs1 ->].
    exists (evs1 ++ evs2). by rewrite app_assoc.
Qed.

Lemma Err_Inv s :
  Inv s ->
  match Err s with
  | None => firings s = 0%nat
  | Some e => firings s = 1%nat /\ returned (history s) = [e]
  end.
Proof.
  intros [H1 H2 H3 H4 H5]. unfold Err.
  rewrite H4. destruct (serveDone s); [|done].
  split; [done|]. rewrite H5. by destruct (task s).
Qed.

Lemma Err_stable s ops e :
  Inv s -> Err s = Some e -> Err (run ops s) = Some e.
Proof.
  intros HI HE.
  pose proof (Err_Inv s HI) as H; rewrite HE in H; destruct H as [Hf Hr].
  pose proof (Err_Inv _ (Inv_run ops s HI)) as H'.
  destruct (history_run ops s) as [evs Hh].
  destruct (Err (run ops s)) as [e'|] eqn:HE'.
  - destruct H' as [Hf' Hr']. rewrite Hh, returned_app, Hr in Hr'.
    by inversion Hr'.
  - unfold firings in *. rewrite Hh, count_app, Hf in H'. lia.
Qed.

Lemma stopped_while_serving_step s o :
  stopped_while_serving s -> stopped_while_serving (step s o).
Proof.
  destruct s as [so q [cap d] on err dn t h].
  unfold stopped_while_serving; simpl. intros (-> & -> & H).
  destruct o as [| | | |fault], t; simpl in *;
    unfold Serve, Stop, closeListener, Close, Stop, task_step, accept_loop,
      serve_returned; simpl; try done; intuition congruence.
Qed.

Lemma stopped_before_serving_step s o :
  stopped_before_serving s -> stopped_before_serving (step s o).
Proof.
  destruct s as [so q [cap d] on err dn t h].
  unfold stopped_before_serving; simpl. intros (-> & H).
  destruct o as [| | | |fault], t; simpl in *;
    unfold Serve, Stop, closeListener, Close, Stop, task_step, accept_loop,
      serve_returned; simpl; try done;
    try (destruct on; simpl; intuition congruence); intuition congruence.
Qed.

Lemma run_preserves (P : Server -> Prop) :
  (forall s o, P s -> P (step s o)) ->
  forall ops s, P s -> P (run ops s).
Proof.
  intros Hstep ops; induction ops as [|o ops IH]; intros s H; simpl; auto.
Qed.

Lemma steps_left_step s o :
  quit s = true -> once s = spawned (task s) ->
  quit (step s o) = true /\
  steps_left (task (step s o)) =
  match o with
  | OpTask _ => pred (steps_left (task s))
  | OpServe => if once s then steps_left (task s) else 2%nat
  | _ => steps_left (task s)
  end.
Proof.
  destruct s as [so q [cap d] on err dn t h]; simpl. intros -> ->.
  destruct o as [| | | |fault], t; simpl;
    unfold Serve, Stop, closeListener, Close, Stop, task_step, accept_loop,
      serve_returned; simpl; done.
Qed.

Lemma steps_left_run ops s :
  Inv s -> quit s = true -> once s = true ->
  (steps_left (task (run ops s)) <= steps_left (task s) - task_steps ops)%nat.
Proof.
  revert s; induction ops as [|o ops IH]; intros s HI Hq Ho; simpl; [lia|].
  destruct (steps_left_step s o Hq (inv_once s HI)) as [Hq' Hl].
  assert (Ho' : once (step s o) = true)
    by (rewrite once_step, Ho; by destruct o).
  specialize (IH (step s o) (Inv_step s o HI) Hq' Ho').
  rewrite Hl, Ho in IH. destruct o; simpl in *; lia.
Qed.

(** ** Serve *)



(** ** Err *)

(** C4.  On every reachable server: [Err] is blocked exactly as long as
    [serveDone] has not been closed; when it returns, the channel was
    closed exactly once and the value is the one error grpc's Serve
    returned; once it has returned a value it returns that value whatever
    happens next.  The value is nil when the server is closed while
    serving, the server-stopped error when it is closed before the
    goroutine gets to serve, and the transport's error when the accept
    loop of a server that is neither stopped nor closed fails by itself. *)
Theorem Err_returns_terminal_error opts p ops :
  let s := run ops (newServer opts p) in
  (Err s = None <-> firings s = 0%nat) /\
  (forall e, Err s = Some e ->
             firings s = 1%nat /\ returned (history s) = [e]) /\
  (forall e ops', Err s = Some e -> Err (run ops' s) = Some e) /\
  (task s = Serving ->
   forall ops', let s' := run (OpClose :: ops') s in
                Err s' = None \/ Err s' = Some None) /\
  (task s = NotSpawned \/ task s = Spawned ->
   forall ops', let s' := run (OpClose :: ops') s in
                Err s' = None \/ Err s' = Some (Some ErrServerStopped)) /\
  (task s = Serving -> quit s = false -> done (listener s) = false ->
   forall e, Err (run [OpTask (Some e); OpTask None] s) = Some (Some e)).
Proof.
  intros s.
  pose proof (Inv_run ops _ (Inv_newServer opts p)) as HI. fold s in HI.
  pose proof (Err_Inv s HI) as HE.
  repeat split.
  - intros H. by rewrite H in HE.
  - intros H. destruct (Err s); [|done]. destruct HE; lia.
  - rewrite H in HE. tauto.
  - rewrite H in HE. tauto.
  - intros e ops'. by apply Err_stable.
  - intros Ht ops' s'.
    assert (HK : stopped_while_serving s').
    { change (stopped_while_serving (run ops' (Close s))).
      apply run_preserves; [apply stopped_while_serving_step|].
      pose proof (inv_once s HI) as Ho. pose proof (inv_done s HI) as Hd.
      destruct s as [so q [cap d] on err dn t h]; simpl in *; subst.
      by cbv. }
    destruct HK as (_ & _ & HK). unfold Err.
    rewrite (inv_done s' (Inv_run _ _ HI)).
    destruct (task s'); simpl; try tauto. right. by rewrite HK.
  - intros Ht ops' s'.
    assert (HK : stopped_before_serving s').
    { change (stopped_before_serving (run ops' (Close s))).
      apply run_preserves; [apply stopped_before_serving_step|].
      pose proof (inv_once s HI) as Ho. pose proof (inv_done s HI) as Hd.
      destruct s as [so q [cap d] on err dn t h]; simpl in *.
      destruct Ht; subst; by cbv. }
    destruct HK as (_ & HK). unfold Err.
    rewrite (inv_done s' (Inv_run _ _ HI)).
    destruct (task s'); simpl; try tauto. right. destruct HK as (_ & ->).
    done.
  - intros Ht Hq Hl e.
    destruct s as [so q [cap d] on err dn t h]; simpl in *; by subst.
Qed.

Lemma Err_returns_terminal_error_witness :
  let s := run [OpServe; OpTask None; OpClose; OpTask None; OpTask None]
               (newServer [] initial) in
  Err s = Some None /\ firings s = 1%nat /\ returned (history s) = [None] /\
  Err (run [OpClose; OpServe] s) = Some None.
Proof.
  destruct (Err_returns_terminal_error [] initial
    [OpServe; OpTask None; OpClose; OpTask None; OpTask None])
    as (_ & H2 & H3 & _).
  split; [vm_compute; reflexivity|].
  split; [apply (H2 None); vm_compute; reflexivity|].
  split; [apply (H2 None); vm_compute; reflexivity|].
  apply (H3 None [OpClose; OpServe]); vm_compute; reflexivity.
Defined.

(** C8.  As long as [Serve] is not among the calls made on a server,
    [serveDone] stays open and [Err] stays blocked, whatever else is done
    to the server ([Close] included). *)
Theorem Err_blocks_forever_without_Serve opts p ops :
  serve_calls ops = 0%nat ->
  let s := run ops (newServer opts p) in
  Err s = None /\ serveDone s = false /\ firings s = 0%nat.
Proof.
  intros Hn s.
  pose proof (Inv_run ops _ (Inv_newServer opts p)) as HI. fold s in HI.
  assert (Ho : once s = false).
  { unfold s. rewrite once_run, Hn. done. }
  assert (Hd : serveDone s = false).
  { rewrite (inv_done s HI). pose proof (inv_once s HI) as H.
    rewrite Ho in H. by destruct (task s). }
  unfold Err. rewrite (inv_firings s HI), Hd. done.
Qed.

Lemma Err_blocks_forever_without_Serve_witness :
  let s := run [OpClose; OpTask None; OpStop; OpListenerClose; OpClose]
               (newServer [] initial) in
  Err s = None /\ serveDone s = false /\ firings s = 0%nat.
Proof.
  apply (Err_blocks_forever_without_Serve [] initial
           [OpClose; OpTask None; OpStop; OpListenerClose; OpClose]).
  reflexivity.
Defined.

(** ** Close *)

Lemma Close_state s :
  history (Close s) = history s ++ [EvStop; EvListenerClose] /\
  quit (Close s) = true /\ done (listener (Close s)) = true.
Proof.
  destruct s as [so q [cap d] on err dn t h]; destruct t; simpl;
    by rewrite <- app_assoc.
Qed.

Lemma Stop_state s :
  quit (Stop s) = true /\ task (Stop s) = task s /\ once (Stop s) = once s.
Proof. destruct s as [so q [cap d] on err dn t h]; by destruct t. Qed.

(** C7.  On every reachable server [Close] first stops the grpc server and
    then closes the listener, and does nothing else that is recorded; it
    leaves the server stopped and the listener closed.  If [Serve] had
    been called, the stop alone lets the goroutine run to the end: after
    two of its steps, however interleaved with other calls, [Err] returns.
    On a server that was never served [Close] returns just the same, with
    no goroutine and [serveDone] still open. *)
Theorem Close_stops_then_closes_listener opts p ops :
  let s := run ops (newServer opts p) in
  Close s = closeListener (Stop s) /\
  history (Close s) = history s ++ [EvStop; EvListenerClose] /\
  quit (Close s) = true /\ done (listener (Close s)) = true /\
  (once s = true ->
   forall ops', (2 <= task_steps ops')%nat ->
                is_Some (Err (run ops' (Stop s)))) /\
  Close (newServer opts p) =
    mkServer opts true (mkListener (getBufferSize p) true) false None false
             NotSpawned [EvStop; EvListenerClose].
Proof.
  intros s.
  pose proof (Inv_run ops _ (Inv_newServer opts p)) as HI. fold s in HI.
  split; [done|].
  destruct (Close_state s) as (Hh & Hq' & Hl').
  do 3 (split; [done|]).
  split; [|done].
  intros Ho ops' Hn.
  assert (HI' : Inv (Stop s)) by apply (Inv_step s OpStop HI).
  destruct (Stop_state s) as (Hq & _ & Ho'). rewrite Ho in Ho'.
  pose proof (steps_left_run ops' (Stop s) HI' Hq Ho') as Hl.
  pose proof (Inv_run ops' _ HI') as HI''.
  assert (Hsp : once (run ops' (Stop s)) = true).
  { rewrite once_run, Ho'. done. }
  unfold Err. rewrite (inv_done _ HI'').
  rewrite (inv_once _ HI'') in Hsp.
  assert (Hb : (steps_left (task (Stop s)) <= 2)%nat)
    by (by destruct (task (Stop s)); simpl; lia).
  destruct (task (run ops' (Stop s))); simpl in *; try done; lia.
Qed.

Lemma Close_stops_then_closes_listener_witness :
  let s := run [OpServe; OpTask None] (newServer [] initial) in
  is_Some (Err (run [OpTask None; OpListenerClose; OpTask None] (Stop s))).
Proof.
  destruct (Close_stops_then_closes_listener [] initial
              [OpServe; OpTask None]) as (_ & _ & _ & _ & H & _).
  apply (H eq_refl [OpTask None; OpListenerClose; OpTask None]).
  vm_compute. lia.
Defined.

(** ** SetBufferSize *)

Lemma to_int32_small z : int32_min <= z <= int32_max -> to_int32 z = z.
Proof.
  unfold to_int32, int32_min, int32_max. intros H.
  rewrite Z.mod_small by lia. lia.
Qed.

Lemma to_int32_range z : int32_min <= to_int32 z <= int32_max.
Proof.
  unfold to_int32, int32_min, int32_max.
  pose proof (Z.mod_pos_bound (z + 2 ^ 31) (2 ^ 32)). lia.
Qed.

(** A size that is not positive panics and leaves the default alone. *)
Lemma SetBufferSize_not_positive size p :
  size <= 0 ->
  SetBufferSize size p = Panics "grpctest: buffer size must be positive" p.
Proof.
  intros H. unfold SetBufferSize.
  by rewrite (proj2 (Z.leb_le size 0) H).
Qed.

(** A positive size never panics; what is stored is [int32(size)]. *)
Lemma SetBufferSize_positive size p :
  0 < size ->
  SetBufferSize size p = Returns () (mkProcess (to_int32 size) (servers p)).
Proof.
  intros H. unfold SetBufferSize.
  by rewrite (proj2 (Z.leb_gt size 0) H).
Qed.

(** A positive size that fits an [int32] is read back as it was given. *)
Lemma SetBufferSize_int32 size p :
  0 < size <= int32_max ->
  getBufferSize (final (SetBufferSize size p)) = size.
Proof.
  intros H. rewrite SetBufferSize_positive by lia. simpl.
  unfold getBufferSize, int_of_int32; simpl.
  apply to_int32_small. unfold int32_min. lia.
Qed.

(** C5.  [SetBufferSize(1 << 32)]: the size is a positive [int], the call
    returns without a panic, and the default read back by [getBufferSize]
    is 0, not the size that was given; with [1 << 31] it is negative. *)
Theorem SetBufferSize_truncates :
  is_int (1 ≪ 32) /\ 0 < 1 ≪ 32 /\
  SetBufferSize (1 ≪ 32) initial = Returns () (mkProcess 0 []) /\
  getBufferSize (final (SetBufferSize (1 ≪ 32) initial)) = 0 /\
  getBufferSize (final (SetBufferSize (1 ≪ 31) initial)) = - 2 ^ 31.
Proof. unfold is_int, int_min, int_max. repeat split; try done. Qed.

(** ** NewServer *)

Lemma listener_step s o : sz (listener (step s o)) = sz (listener s).
Proof.
  destruct s as [so q [cap d] on err dn t h], o as [| | | |fault]; simpl;
    unfold Serve, Stop, closeListener, Close, Stop, task_step, accept_loop,
      serve_returned; simpl; lifecycle_cases; done.
Qed.

Lemma listener_Serve s : listener (Serve s) = listener s.
Proof. unfold Serve. by destruct (once s). Qed.

Lemma capacity_pstep p o h s :
  servers p !! h = Some s ->
  exists s', servers (final (pstep p o)) !! h = Some s' /\
             sz (listener s') = sz (listener s).
Proof.
  intros Hs. destruct o as [size|opts|h' o]; simpl.
  - unfold SetBufferSize. destruct (size <=? 0); simpl; eauto.
  - exists s. split; [|done]. by apply lookup_app_l_Some.
  - destruct (decide (h' = h)) as [->|Hne].
    + exists (step s o). rewrite list_lookup_alter_eq, Hs. simpl.
      split; [done|]. apply listener_step.
    + exists s. by rewrite list_lookup_alter_ne.
Qed.

Lemma capacity_prun ops p h s :
  servers p !! h = Some s ->
  exists s', servers (final (prun ops p)) !! h = Some s' /\
             sz (listener s') = sz (listener s).
Proof.
  revert p s; induction ops as [|o ops IH]; intros p s Hs; simpl; [eauto|].
  destruct (capacity_pstep p o h s Hs) as (s1 & Hs1 & Hc1).
  destruct (pstep p o) as [[] p1|msg p1]; simpl in *.
  - destruct (IH p1 s1 Hs1) as (s2 & Hs2 & Hc2). exists s2.
    split; [done|]. congruence.
  - eauto.
Qed.

(** C6.  [NewServer] puts a fresh listener into the server it allocates,
    with the capacity [getBufferSize] reports at that moment and with no
    goroutine started; [Serve] leaves the listener as it is.  Whatever is
    done to the process afterwards (calls of [SetBufferSize] included) the
    server keeps that capacity, and a server constructed later gets the
    default of its own moment. *)
Theorem NewServer_fixes_listener_capacity opts p :
  let h := fst (NewServer opts p) in
  let p1 := snd (NewServer opts p) in
  servers p1 !! h = Some (newServer opts p) /\
  listener (newServer opts p) = mkListener (getBufferSize p) false /\
  task (newServer opts p) = NotSpawned /\
  (forall s, listener (Serve s) = listener s) /\
  (forall ops,
      exists s', servers (final (prun ops p1)) !! h = Some s' /\
                 sz (listener s') = getBufferSize p) /\
  (forall ops opts',
      let p2 := final (prun ops p1) in
      let h' := fst (NewServer opts' p2) in
      let p3 := snd (NewServer opts' p2) in
      h' <> h /\
      exists s' s'',
        servers p3 !! h = Some s' /\ sz (listener s') = getBufferSize p /\
        servers p3 !! h' = Some s'' /\ sz (listener s'') = getBufferSize p2).
Proof.
  intros h p1.
  assert (Hh : servers p1 !! h = Some (newServer opts p)).
  { unfold p1, h; simpl. apply list_lookup_middle. done. }
  split; [done|]. split; [done|]. split; [done|].
  split; [apply listener_Serve|].
  split.
  - intros ops. apply (capacity_prun ops p1 h _ Hh).
  - intros ops opts' p2 h' p3.
    destruct (capacity_prun ops p1 h _ Hh) as (s' & Hs' & Hc').
    fold p2 in Hs'.
    split.
    + unfold h'; simpl. apply lookup_lt_Some in Hs'. lia.
    + exists s', (newServer opts' p2). split; [|split; [done|split; [|done]]].
      * unfold p3; simpl. by apply lookup_app_l_Some.
      * unfold p3, h'; simpl. by apply list_lookup_middle.
Qed.

(** The scenario of [TestSetBufferSize], with a server built beforehand. *)
Example buffer_size_scoping :
  let h1 := fst (NewServer [] initial) in
  let p1 := snd (NewServer [] initial) in
  let p2 := final (prun [POn h1 OpServe; PSetBufferSize (2 ≪ 20)] p1) in
  let h2 := fst (NewServer [] p2) in
  let p3 := snd (NewServer [] p2) in
  (sz ∘ listener <$> servers p3 !! h1) = Some (1 ≪ 20) /\
  (sz ∘ listener <$> servers p3 !! h2) = Some (2 ≪ 20).
Proof. by vm_compute. Qed.

(** ** Dial options *)

Lemma applyOptions_app opts1 opts2 o :
  applyOptions (opts1 ++ opts2) o = applyOptions opts2 (applyOptions opts1 o).
Proof. apply fold_left_app. Qed.

Lemma applyOptions_dialOpts s opts o :
  applyOptions (dialOpts s opts) o =
  WithContextDialer (BufconnDialer s)
    (applyOptions opts (WithTransportCredentials Insecure o)).
Proof. unfold dialOpts. by rewrite applyOptions_app. Qed.

(** ** Calls on the world *)

Lemma deref_ok w c cc :
  conns w !! c = Some cc -> deref (Some c) w = Some (Returns (c, cc) w).
Proof. intros H. unfold deref. by rewrite H. Qed.

Lemma GetState_ok w c cc :
  conns w !! c = Some cc ->
  GetState (Some c) w = Some (Returns (state cc) w).
Proof. intros H. unfold GetState, bind. by rewrite (deref_ok w c cc H). Qed.

Lemma WaitForStateChange_ok rt w c cc ctx td e :
  conns w !! c = Some cc ->
  done_at ctx = Some (td, e) ->
  WaitForStateChange rt (Some c) ctx (state cc) w =
  Some match pending cc with
       | [] => Returns false (mkWorld (Z.max (clock w) td) (conns w))
       | (tc, s') :: rest =>
           if done_first rt (clock w) td tc
           then Returns false (mkWorld (Z.max (clock w) td) (conns w))
           else Returns true
                  (mkWorld (Z.max (clock w) tc)
                     (<[c := mkClientConn (target cc) (dopts cc) s' rest
                                          (closed cc)]> (conns w)))
       end.
Proof.
  intros Hc Hd. unfold WaitForStateChange, bind.
  rewrite (deref_ok w c cc Hc). rewrite decide_True by done.
  unfold now. rewrite Hd.
  destruct (pending cc) as [|[tc s'] rest]; [done|].
  by destruct (done_first rt (clock w) td tc).
Qed.

Lemma Context_Err_done ctx td e t :
  done_at ctx = Some (td, e) -> td <= t ->
  Context_Err ctx t = Some (ErrContext e).
Proof.
  intros Hd Ht. unfold Context_Err. rewrite Hd.
  by rewrite (proj2 (Z.leb_le td t) Ht).
Qed.

(** [WithTimeout] is done at the earlier of the parent's moment and
    [now + d], with the error of whichever it is. *)
Lemma WithTimeout_done_at parent t d :
  done_at (WithTimeout parent t d) =
  match done_at parent with
  | Some (tp, ep) =>
      if tp <=? t + d then Some (tp, ep) else Some (t + d, DeadlineExceeded)
  | None => Some (t + d, DeadlineExceeded)
  end.
Proof.
  unfold WithTimeout. destruct (done_at parent) as [[tp ep]|] eqn:H; [|done].
  destruct (tp <=? t + d); [|done]. by rewrite H.
Qed.

Lemma WithTimeout_is_done parent t d :
  exists td e, done_at (WithTimeout parent t d) = Some (td, e) /\ td <= t + d.
Proof.
  rewrite WithTimeout_done_at.
  destruct (done_at parent) as [[tp ep]|]; [|eexists _, _; split; [done|lia]].
  destruct (tp <=? t + d) eqn:H; eexists _, _; (split; [done|]); lia.
Qed.

(** ** The readiness loop *)

(** What one run of the loop does to the connection at [c] and to the rest
    of the world. *)
Lemma readyLoop_spec rt c connCtx td e :
  done_at connCtx = Some (td, e) ->
  forall fuel w cc,
    conns w !! c = Some cc ->
    (length (pending cc) < fuel)%nat ->
    exists r w' cc',
      readyLoop fuel rt (Some c) connCtx w = Some (Returns r w') /\
      conns w' !! c = Some cc' /\
      length (conns w') = length (conns w) /\
      (forall j, j <> c -> conns w' !! j = conns w !! j) /\
      closed cc' = closed cc /\ dopts cc' = dopts cc /\
      target cc' = target cc /\
      pending cc' `suffix_of` pending cc /\
      clock w <= clock w' /\
      ((r = (Some c, None) /\ state cc' = Ready) \/
       (r = (None, Some (ErrContext e)) /\ state cc' <> Ready /\
        td <= clock w')).
Proof.
  intros Hd. induction fuel as [|fuel IH]; intros w cc Hc Hlen; [lia|].
  simpl. unfold bind at 1. rewrite (GetState_ok w c cc Hc).
  destruct (decide (state cc = Ready)) as [Hr|Hr].
  { exists (Some c, None), w, cc. unfold ret.
    repeat split; try done. by left. }
  unfold bind at 1. rewrite (WaitForStateChange_ok rt w c cc connCtx td e Hc Hd).
  assert (Hexp :
    let w' := mkWorld (Z.max (clock w) td) (conns w) in
    exists r w'' cc',
      (do t <- now; ret (None, Context_Err connCtx t)) w' =
        Some (Returns r w'') /\
      conns w'' !! c = Some cc' /\
      length (conns w'') = length (conns w) /\
      (forall j, j <> c -> conns w'' !! j = conns w !! j) /\
      closed cc' = closed cc /\ dopts cc' = dopts cc /\
      target cc' = target cc /\
      pending cc' `suffix_of` pending cc /\
      clock w <= clock w'' /\
      ((r = (Some c, None) /\ state cc' = Ready) \/
       (r = (None, Some (ErrContext e)) /\ state cc' <> Ready /\
        td <= clock w''))).
  { intros w'. exists (None, Some (ErrContext e)), w', cc.
    unfold bind, now, ret. simpl.
    rewrite (Context_Err_done connCtx td e) by (done || lia).
    repeat split; try done; try lia. right. repeat split; try done. lia. }
  destruct (pending cc) as [|[tc s'] rest] eqn:Hp; [exact Hexp|].
  destruct (done_first rt (clock w) td tc); [exact Hexp|]. simpl.
  clear Hexp.
  set (cc2 := mkClientConn (target cc) (dopts cc) s' rest (closed cc)).
  set (w2 := mkWorld (Z.max (clock w) tc) (<[c:=cc2]> (conns w))).
  assert (Hc2 : conns w2 !! c = Some cc2).
  { simpl. apply list_lookup_insert_eq. by apply lookup_lt_Some in Hc. }
  destruct (IH w2 cc2 Hc2) as (r & w' & cc' & Hrun & Hc' & Hl & Ho & H1 & H2
                               & H3 & Hsuf & Hclk & Hres).
  { simpl in *. lia. }
  exists r, w', cc'. split; [done|]. split; [done|].
  split; [by rewrite Hl; simpl; rewrite length_insert|].
  split.
  { intros j Hj. rewrite (Ho j Hj). simpl. by apply list_lookup_insert_ne. }
  do 3 (split; [done|]).
  split; [by apply suffix_cons_r|].
  split; [simpl in Hclk; lia|done].
Qed.

(** More iterations do not change a result that was reached. *)
Lemma readyLoop_mono rt conn connCtx fuel fuel' w x :
  (fuel <= fuel')%nat ->
  readyLoop fuel rt conn connCtx w = Some x ->
  readyLoop fuel' rt conn connCtx w = Some x.
Proof.
  revert fuel' w; induction fuel as [|fuel IH]; intros fuel' w Hle; [done|].
  destruct fuel' as [|fuel']; [lia|]. simpl. unfold bind.
  destruct (GetState conn w) as [[st w1|msg w1]|]; try done.
  destruct (decide (st = Ready)); [done|].
  destruct (WaitForStateChange rt conn connCtx st w1)
    as [[[] w2|msg w2]|]; try done.
  simpl. apply IH. lia.
Qed.

Lemma insert_last {A} (l : list A) (x y : A) :
  <[length l := y]> (l ++ [x]) = l ++ [y].
Proof.
  rewrite insert_app_r_alt by lia. by rewrite Nat.sub_diag.
Qed.

(** The call, up to the loop: either [NewClient] refuses the options, or
    the loop runs on a fresh connection that has left idle. *)
Lemma ClientConnContext_unfold fuel rt s ctx opts w :
  ClientConnContext fuel rt s ctx opts w =
  let o := applyOptions (dialOpts s opts) defaultDialOptions in
  match rt_check rt o with
  | Some code => Some (Returns (None, Some (ErrNewClient code)) w)
  | None =>
      readyLoop fuel rt (Some (length (conns w)))
        (WithTimeout ctx (clock w) (5 * Second))
        (mkWorld (clock w)
           (conns w ++ [mkClientConn "passthrough:///test" o Idle
                                     (rt_future rt) false]))
  end.
Proof.
  unfold ClientConnContext, bind at 1, NewClient. simpl.
  destruct (rt_check rt _) as [code|]; [done|].
  unfold bind at 1, Connect, bind at 1, deref. simpl.
  rewrite list_lookup_middle by done. simpl.
  unfold store; simpl. unfold bind, now; simpl.
  by rewrite insert_last.
Qed.

(** The call returns whenever the loop is given more iterations than the
    connection has state changes to come, and this is what it leaves. *)
Lemma ClientConnContext_spec fuel rt s ctx opts w :
  (length (rt_future rt) < fuel)%nat ->
  let o := applyOptions (dialOpts s opts) defaultDialOptions in
  let c := length (conns w) in
  let connCtx := WithTimeout ctx (clock w) (5 * Second) in
  exists r w',
    ClientConnContext fuel rt s ctx opts w = Some (Returns r w') /\
    match rt_check rt o with
    | Some code => r = (None, Some (ErrNewClient code)) /\ w' = w
    | None =>
        exists cc td e,
          done_at connCtx = Some (td, e) /\
          conns w' !! c = Some cc /\
          length (conns w') = S (length (conns w)) /\
          (forall j, (j < c)%nat -> conns w' !! j = conns w !! j) /\
          closed cc = false /\ dopts cc = o /\
          pending cc `suffix_of` rt_future rt /\
          clock w <= clock w' /\
          ((r = (Some c, None) /\ state cc = Ready) \/
           (r = (None, Some (ErrContext e)) /\ state cc <> Ready /\
            td <= clock w'))
    end.
Proof.
  intros Hfuel o c connCtx. rewrite ClientConnContext_unfold.
  cbv zeta. fold o.
  destruct (rt_check rt o) as [code|]; [by eexists _, _|].
  destruct (WithTimeout_is_done ctx (clock w) (5 * Second))
    as (td & e & Hd & _).
  fold connCtx in Hd |- *. fold c.
  set (cc0 := mkClientConn _ _ _ _ _).
  set (w0 := mkWorld _ _).
  assert (Hc0 : conns w0 !! c = Some cc0) by (by apply list_lookup_middle).
  destruct (readyLoop_spec rt c connCtx td e Hd fuel w0 cc0 Hc0 Hfuel)
    as (r & w' & cc' & Hrun & Hc' & Hl & Ho & H1 & H2 & H3 & Hsuf & Hclk
        & Hres).
  exists r, w'. split; [done|]. exists cc', td, e.
  split; [done|]. split; [done|].
  split; [rewrite Hl; simpl; rewrite length_app; simpl; lia|].
  split.
  { intros j Hj. rewrite Ho by lia. simpl. by apply lookup_app_l. }
  done.
Qed.

(** ** ClientConnContext and ClientConn *)

(** C2.  The options [ClientConnContext] hands to grpc are the insecure
    credentials, then the caller's options in their order, then the
    dialer of the server's listener.  Applied in that order they leave the
    listener's dialer in place whatever the caller passed (so no dialer of
    the caller is), and leave every other setting as the caller's options
    make it on top of the insecure credentials; the connection the call
    builds carries exactly these settings. *)
Theorem ClientConnContext_dialer_is_fixed s opts :
  dialOpts s opts =
    WithTransportCredentials Insecure
      :: opts ++ [WithContextDialer (BufconnDialer s)] /\
  let o := applyOptions (dialOpts s opts) defaultDialOptions in
  let o' := applyOptions opts
              (WithTransportCredentials Insecure defaultDialOptions) in
  dialer o = Some (BufconnDialer s) /\
  (forall id, dialer o <> Some (CustomDialer id)) /\
  creds o = creds o' /\ unaryInt o = unaryInt o' /\
  chainUnaryInts o = chainUnaryInts o' /\
  maxCallRecvMsgSize o = maxCallRecvMsgSize o' /\
  (forall rt ctx w,
      rt_check rt o = None ->
      exists r w' cc,
        ClientConnContext (S (length (rt_future rt))) rt s ctx opts w =
          Some (Returns r w') /\
        conns w' !! length (conns w) = Some cc /\ dopts cc = o).
Proof.
  split; [done|]. intros o o'.
  assert (Ho : o = WithContextDialer (BufconnDialer s) o')
    by apply applyOptions_dialOpts.
  do 6 (split; [by rewrite Ho|]).
  intros rt ctx w Hcheck.
  destruct (ClientConnContext_spec (S (length (rt_future rt))) rt s ctx opts w)
    as (r & w' & Hrun & Hpost); [lia|].
  cbv zeta in Hpost. fold o in Hpost. rewrite Hcheck in Hpost.
  destruct Hpost as (cc & td & e & _ & Hc & _ & _ & _ & Hd & _).
  by exists r, w', cc.
Qed.

Lemma ClientConnContext_dialer_is_fixed_witness :
  exists r w' cc,
    ClientConnContext 3
      (mkRuntime (fun _ => None) [(10, Connecting); (20, Ready)]
                 (fun _ => true))
      0 Background
      [WithContextDialer (CustomDialer 1); WithTransportCredentials (TLS 2);
       WithUnaryInterceptor 7]
      (mkWorld 0 []) = Some (Returns r w') /\
    conns w' !! 0%nat = Some cc /\
    dopts cc = mkDialOptions (Some (TLS 2)) (Some (BufconnDialer 0))
                             (Some 7%nat) [] None.
Proof.
  destruct (ClientConnContext_dialer_is_fixed 0
    [WithContextDialer (CustomDialer 1); WithTransportCredentials (TLS 2);
     WithUnaryInterceptor 7]) as (_ & _ & _ & _ & _ & _ & _ & H).
  exact (H (mkRuntime (fun _ => None) [(10, Connecting); (20, Ready)]
                      (fun _ => true))
           Background (mkWorld 0 []) eq_refl).
Defined.



(** C9.  [ClientConn] is [ClientConnContext] on the background context,
    which has no deadline and never reports an error; the context the loop
    then waits on is done five seconds after the call started and at no
    other moment, so a failure of the wait is a deadline-exceeded error
    returned no earlier than that. *)
Theorem ClientConn_is_ClientConnContext_Background fuel rt s opts w :
  ClientConn fuel rt s opts w = ClientConnContext fuel rt s Background opts w /\
  done_at Background = None /\
  (forall t, Context_Err Background t = None) /\
  done_at (WithTimeout Background (clock w) (5 * Second)) =
    Some (clock w + 5 * Second, DeadlineExceeded) /\
  (forall e w',
      ClientConn fuel rt s opts w =
        Some (Returns (None, Some (ErrContext e)) w') ->
      e = DeadlineExceeded /\ clock w + 5 * Second <= clock w').
Proof.
  do 4 (split; [done|]).
  intros e w' Hrun. unfold ClientConn in Hrun.
  set (fuel' := Nat.max fuel (S (length (rt_future rt)))).
  destruct (ClientConnContext_spec fuel' rt s Background opts w)
    as (r & w'' & Hrun' & Hpost); [lia|].
  assert (Hrun'' : ClientConnContext fuel' rt s Background opts w =
                   Some (Returns (None, Some (ErrContext e)) w')).
  { rewrite ClientConnContext_unfold in Hrun |- *. cbv zeta in *.
    destruct (rt_check rt _); [done|].
    apply (readyLoop_mono _ _ _ fuel); [lia|done]. }
  rewrite Hrun'' in Hrun'. inversion Hrun'; subst r w''. clear Hrun'.
  cbv zeta in Hpost. destruct (rt_check rt _) as [code|].
  - by destruct Hpost.
  - destruct Hpost as (cc & td & e' & Hd & _ & _ & _ & _ & _ & _ & _ & Hres).
    simpl in Hd. inversion Hd; subst td e'.
    destruct Hres as [[? _]|(Hr & _ & Hclk)]; [done|].
    inversion Hr; subst. done.
Qed.

Lemma ClientConn_is_ClientConnContext_Background_witness :
  let rt := mkRuntime (fun _ => None)
                      [(10, Connecting); (20, TransientFailure)]
                      (fun _ => true) in
  let w' := mkWorld (5 * Second)
              [mkClientConn "passthrough:///test"
                 (mkDialOptions (Some Insecure) (Some (BufconnDialer 0))
                                None [] None)
                 TransientFailure [] false] in
  ClientConn 3 rt 0 [] (mkWorld 0 []) =
    Some (Returns (None, Some (ErrContext DeadlineExceeded)) w') /\
  0 + 5 * Second <= clock w'.
Proof.
  intros rt w'.
  assert (Hrun : ClientConn 3 rt 0 [] (mkWorld 0 []) =
                 Some (Returns (None, Some (ErrContext DeadlineExceeded)) w'))
    by (vm_compute; reflexivity).
  split; [exact Hrun|].
  destruct (ClientConn_is_ClientConnContext_Background 3 rt 0 [] (mkWorld 0 []))
    as (_ & _ & _ & _ & H).
  exact (proj2 (H DeadlineExceeded w' Hrun)).
Defined.

(** [conn.Close()] on a live connection marks it closed. *)
Lemma ClientConn_Close_ok w c cc :
  conns w !! c = Some cc ->
  exists w',
    ClientConn_Close (Some c) w = Some (Returns () w') /\
    closed <$> conns w' !! c = Some true.
Proof.
  intros Hc. unfold ClientConn_Close, bind. rewrite (deref_ok w c cc Hc).
  eexists. split; [done|]. simpl.
  rewrite list_lookup_insert_eq by (by apply lookup_lt_Some in Hc). done.
Qed.

(** C10.  When the call fails with the context's error, the connection it
    built is still in the world, at the address [NewClient] gave it: it has
    left idle (what remains of its state changes is a tail of what the
    runtime had in store), it is not ready, and [Close] was not called on
    it (calling it now is what would mark it closed); the connections that
    were there before are untouched. *)
Theorem ClientConnContext_failure_leaves_connection_open
    fuel rt s ctx opts w e w' :
  ClientConnContext fuel rt s ctx opts w =
    Some (Returns (None, Some (ErrContext e)) w') ->
  exists cc,
    conns w' !! length (conns w) = Some cc /\
    length (conns w') = S (length (conns w)) /\
    closed cc = false /\
    state cc <> Ready /\
    pending cc `suffix_of` rt_future rt /\
    dopts cc = applyOptions (dialOpts s opts) defaultDialOptions /\
    (forall j, (j < length (conns w))%nat -> conns w' !! j = conns w !! j) /\
    exists w'',
      ClientConn_Close (Some (length (conns w))) w' = Some (Returns () w'') /\
      closed <$> conns w'' !! length (conns w) = Some true.
Proof.
  intros Hrun.
  set (fuel' := Nat.max fuel (S (length (rt_future rt)))).
  destruct (ClientConnContext_spec fuel' rt s ctx opts w)
    as (r & w'' & Hrun' & Hpost); [lia|].
  assert (Hrun'' : ClientConnContext fuel' rt s ctx opts w =
                   Some (Returns (None, Some (ErrContext e)) w')).
  { rewrite ClientConnContext_unfold in Hrun |- *. cbv zeta in *.
    destruct (rt_check rt _); [done|].
    apply (readyLoop_mono _ _ _ fuel); [lia|done]. }
  rewrite Hrun'' in Hrun'. inversion Hrun'; subst r w''. clear Hrun'.
  cbv zeta in Hpost. destruct (rt_check rt _) as [code|].
  - by destruct Hpost.
  - destruct Hpost as (cc & td & e' & _ & Hc & Hl & Ho & Hcl & Hd & Hsuf & _
                       & Hres).
    destruct Hres as [[? _]|(_ & Hr & _)]; [done|].
    exists cc. do 7 (split; [done|]).
    by apply (ClientConn_Close_ok w' _ cc).
Qed.

Lemma ClientConnContext_failure_leaves_connection_open_witness :
  exists cc,
    [mkClientConn "passthrough:///test"
       (mkDialOptions (Some Insecure) (Some (BufconnDialer 0)) None [] None)
       Connecting [(20, TransientFailure)] false] !! length (@nil grpcClientConn)
      = Some cc /\
    closed cc = false.
Proof.
  destruct (ClientConnContext_failure_leaves_connection_open 5
              (mkRuntime (fun _ => None)
                         [(10, Connecting); (20, TransientFailure)]
                         (fun _ => true))
              0 (mkContext (Some (15, Canceled))) [] (mkWorld 0 []) Canceled
              (mkWorld 15
                 [mkClientConn "passthrough:///test"
                    (mkDialOptions (Some Insecure) (Some (BufconnDialer 0))
                                   None [] None)
                    Connecting [(20, TransientFailure)] false]))
    as (cc & Hc & _ & Hcl & _).
  - vm_compute. reflexivity.
  - exists cc. split; [exact Hc|exact Hcl].
Defined.

(** * Further properties *)

(** ** The default buffer size *)

(** X1.  A positive size is read back as it was given exactly when it fits an
    [int32]. *)
Theorem SetBufferSize_round_trip size p :
  0 < size -> is_int size ->
  (getBufferSize (final (SetBufferSize size p)) = size <->
   size <= int32_max).
Proof.
  intros Hpos Hint. rewrite SetBufferSize_positive by done. simpl.
  unfold getBufferSize, int_of_int32; simpl. split.
  - intros H. pose proof (to_int32_range size). lia.
  - intros H. apply to_int32_small. unfold int32_min. lia.
Qed.

Lemma SetBufferSize_round_trip_witness :
  getBufferSize (final (SetBufferSize (2 ≪ 20) initial)) = 2 ≪ 20 <->
  2 ≪ 20 <= int32_max.
Proof.
  apply (SetBufferSize_round_trip (2 ≪ 20) initial).
  - vm_compute. reflexivity.
  - vm_compute. split; discriminate.
Defined.

Lemma positive_pstep p o :
  sizes_fit [o] = true ->
  0 < getBufferSize p ->
  (forall h s, servers p !! h = Some s -> 0 < sz (listener s)) ->
  0 < getBufferSize (final (pstep p o)) /\
  (forall h s, servers (final (pstep p o)) !! h = Some s ->
               0 < sz (listener s)).
Proof.
  intros Hfit Hp Hs. destruct o as [size|opts|h' o]; simpl in *.
  - unfold SetBufferSize. destruct (size <=? 0) eqn:Hle; simpl; [done|].
    split; [|done]. unfold getBufferSize, int_of_int32; simpl.
    rewrite to_int32_small; unfold int32_min; lia.
  - split; [done|]. intros h s Hl.
    apply lookup_app_Some in Hl as [Hl|[_ Hl]]; [by eapply Hs|].
    destruct (h - length (servers p))%nat; [|by destruct n].
    by inversion Hl.
  - split; [done|]. intros h s Hl.
    destruct (decide (h' = h)) as [->|Hne].
    + rewrite list_lookup_alter_eq in Hl.
      destruct (servers p !! h) as [s0|] eqn:Hs0; [|done].
      inversion Hl. rewrite listener_step. by eapply Hs.
    + rewrite list_lookup_alter_ne in Hl by done. by eapply Hs.
Qed.

(** X2.  As long as every size given to [SetBufferSize] fits an [int32], the
    default stays positive and so does the capacity of every listener the
    process ever builds. *)
Theorem buffer_sizes_stay_positive ops :
  sizes_fit ops = true ->
  let p := final (prun ops initial) in
  0 < getBufferSize p /\
  (forall h s, servers p !! h = Some s -> 0 < sz (listener s)).
Proof.
  intros Hfit.
  assert (H : forall p0,
             0 < getBufferSize p0 ->
             (forall h s, servers p0 !! h = Some s -> 0 < sz (listener s)) ->
             let p := final (prun ops p0) in
             0 < getBufferSize p /\
             (forall h s, servers p !! h = Some s -> 0 < sz (listener s))).
  { induction ops as [|o ops IH]; intros p0 H0 Hs0; simpl; [done|].
    assert (Hfit1 : sizes_fit [o] = true /\ sizes_fit ops = true).
    { destruct o; simpl in *; try done.
      apply andb_true_iff in Hfit as [-> ->]. done. }
    destruct Hfit1 as [Hfit1 Hfit2].
    destruct (positive_pstep p0 o Hfit1 H0 Hs0) as [H1 Hs1].
    destruct (pstep p0 o) as [[] p1|msg p1]; simpl in *; [|done].
    by apply IH. }
  apply H; [done|]. intros h s Hl. by destruct h.
Qed.

Lemma buffer_sizes_stay_positive_witness :
  let p := final (prun [PSetBufferSize (2 ≪ 20); PNewServer [];
                        POn 0 OpServe; PSetBufferSize 1] initial) in
  0 < getBufferSize p /\
  (forall h s, servers p !! h = Some s -> 0 < sz (listener s)).
Proof.
  apply (buffer_sizes_stay_positive
           [PSetBufferSize (2 ≪ 20); PNewServer []; POn 0 OpServe;
            PSetBufferSize 1]).
  vm_compute. reflexivity.
Defined.

(** ** Servers do not interfere *)

(** X3.  Whatever the process does, a server that no action is directed at
    stays exactly as it is, at the address it has. *)
Theorem untouched_server_unchanged ops p h s :
  servers p !! h = Some s ->
  touches h ops = false ->
  servers (final (prun ops p)) !! h = Some s.
Proof.
  revert p; induction ops as [|o ops IH]; intros p Hs Ht; simpl; [done|].
  assert (H1 : servers (final (pstep p o)) !! h = Some s /\
               touches h ops = false).
  { destruct o as [size|opts|h' o]; simpl in *.
    - split; [|done]. unfold SetBufferSize. by destruct (size <=? 0).
    - split; [|done]. by apply lookup_app_l_Some.
    - apply orb_false_iff in Ht as [Hne Ht]. split; [|done].
      apply bool_decide_eq_false in Hne.
      by rewrite list_lookup_alter_ne. }
  destruct H1 as [H1 Ht'].
  destruct (pstep p o) as [[] p1|msg p1]; simpl in *; [|done].
  by apply IH.
Qed.

Lemma untouched_server_unchanged_witness :
  let p := snd (NewServer [] (snd (NewServer [] initial))) in
  servers (final (prun [POn 1 OpServe; PSetBufferSize 7; POn 1 OpClose;
                        PNewServer []; POn 2 OpServe] p)) !! 0%nat =
  Some (newServer [] initial).
Proof.
  apply (untouched_server_unchanged
           [POn 1 OpServe; PSetBufferSize 7; POn 1 OpClose; PNewServer [];
            POn 2 OpServe]
           (snd (NewServer [] (snd (NewServer [] initial)))) 0
           (newServer [] initial)).
  - vm_compute. reflexivity.
  - vm_compute. reflexivity.
Defined.

(** ** Close, again *)

(** X5.  A second [Close] changes nothing but the history; this rests on grpc's
    Stop and bufconn's Close both accepting a repeated call. *)
Theorem Close_twice s :
  let s1 := Close s in
  let s2 := Close s1 in
  quit s2 = quit s1 /\ listener s2 = listener s1 /\ once s2 = once s1 /\
  serveErr s2 = serveErr s1 /\ serveDone s2 = serveDone s1 /\
  task s2 = task s1 /\ sopts s2 = sopts s1 /\
  history s2 = history s1 ++ [EvStop; EvListenerClose].
Proof.
  destruct s as [so q [cap d] on err dn t h]; destruct t; simpl;
    rewrite <- ?app_assoc; done.
Qed.

Lemma closed_Close s :
  quit (Close s) = true /\ done (listener (Close s)) = true /\
  sz (listener (Close s)) = sz (listener s) /\
  once (Close s) = once s /\ task (Close s) = task s /\
  serveErr (Close s) = serveErr s /\ serveDone (Close s) = serveDone s.
Proof. destruct s as [so q [cap d] on err dn t h]; by destruct t. Qed.

Lemma cleanups_registered hs t :
  cleanups (fold_left (fun t h => CloseOnCleanup h t) hs t) =
  map (fun h => on_server h Close) (reverse hs) ++ cleanups t.
Proof.
  revert t; induction hs as [|h hs IH]; intros t; simpl; [done|].
  rewrite IH, reverse_cons, map_app. simpl. by rewrite <- app_assoc.
Qed.

Lemma closes_spec l p h s :
  servers p !! h = Some s ->
  let p' := fold_left (fun p f => f p)
                      (map (fun h => on_server h Close) l) p in
  bufferSize p' = bufferSize p /\
  exists s',
    servers p' !! h = Some s' /\
    (h ∉ l -> s' = s) /\
    (h ∈ l -> quit s' = true /\ done (listener s') = true) /\
    (quit s = true -> quit s' = true) /\
    (done (listener s) = true -> done (listener s') = true) /\
    sz (listener s') = sz (listener s) /\
    once s' = once s /\ task s' = task s /\
    serveErr s' = serveErr s /\ serveDone s' = serveDone s.
Proof.
  revert p s; induction l as [|h' l IH]; intros p s Hs; simpl.
  { split; [done|]. exists s. split; [done|].
    split; [done|]. split; [by intros ?%elem_of_nil|]. done. }
  destruct (decide (h' = h)) as [->|Hne].
  - assert (Hs1 : servers (on_server h Close p) !! h = Some (Close s)).
    { simpl. by rewrite list_lookup_alter_eq, Hs. }
    destruct (IH _ _ Hs1) as (Hb & s' & Hl & _ & _ & Hq & Hd & Hz & H1 & H2
                              & H3 & H4).
    destruct (closed_Close s) as (Cq & Cd & Cz & C1 & C2 & C3 & C4).
    split; [done|]. exists s'. split; [done|].
    split; [intros Hn; exfalso; apply Hn; by left|].
    split; [intros _; by split; auto|].
    split; [auto|]. split; [auto|].
    repeat split; congruence.
  - assert (Hs1 : servers (on_server h' Close p) !! h = Some s).
    { simpl. by rewrite list_lookup_alter_ne. }
    destruct (IH _ _ Hs1) as (Hb & s' & Hl & Hn & Hi & Hrest).
    split; [done|]. exists s'. split; [done|].
    split.
    { intros Hnot. apply Hn. intros Hin. apply Hnot. by right. }
    split; [|done].
    intros Hin. apply Hi. apply elem_of_cons in Hin as [->|Hin]; done.
Qed.

(** X4.  When a test that registered its servers with [CloseOnCleanup] (and
    nothing else with [Cleanup]) ends, every registered server is stopped
    and its listener closed, whether or not it was served or closed
    before; its goroutine, error and capacity are as they were, a server
    that was not registered is untouched, and so is the default buffer
    size. *)
Theorem CloseOnCleanup_closes_at_teardown hs p h s :
  servers p !! h = Some s ->
  let t := fold_left (fun t h => CloseOnCleanup h t) hs (mkTB []) in
  let p' := runCleanups t p in
  bufferSize p' = bufferSize p /\
  exists s',
    servers p' !! h = Some s' /\
    (h ∉ hs -> s' = s) /\
    (h ∈ hs -> quit s' = true /\ done (listener s') = true) /\
    sz (listener s') = sz (listener s) /\
    once s' = once s /\ task s' = task s /\
    serveErr s' = serveErr s /\ serveDone s' = serveDone s.
Proof.
  intros Hs t p'. unfold p', runCleanups, t.
  rewrite cleanups_registered, app_nil_r.
  destruct (closes_spec (reverse hs) p h s Hs)
    as (Hb & s' & Hl & Hn & Hi & _ & _ & Hrest).
  split; [done|]. exists s'. split; [done|].
  split; [intros Hnot; apply Hn; by rewrite elem_of_reverse|].
  split; [intros Hin; apply Hi; by rewrite elem_of_reverse|].
  done.
Qed.

Lemma CloseOnCleanup_closes_at_teardown_witness :
  let p := snd (NewServer [] (snd (NewServer [] initial))) in
  let t := fold_left (fun t h => CloseOnCleanup h t) [1%nat; 1%nat]
                     (mkTB []) in
  bufferSize (runCleanups t p) = bufferSize p /\
  exists s',
    servers (runCleanups t p) !! 1%nat = Some s' /\
    (1%nat ∉ [1%nat; 1%nat] -> s' = newServer [] initial) /\
    (1%nat ∈ [1%nat; 1%nat] -> quit s' = true /\ done (listener s') = true) /\
    sz (listener s') = sz (listener (newServer [] initial)) /\
    once s' = once (newServer [] initial) /\
    task s' = task (newServer [] initial) /\
    serveErr s' = serveErr (newServer [] initial) /\
    serveDone s' = serveDone (newServer [] initial).
Proof.
  apply (CloseOnCleanup_closes_at_teardown [1%nat; 1%nat]
           (snd (NewServer [] (snd (NewServer [] initial)))) 1
           (newServer [] initial)).
  vm_compute. reflexivity.
Defined.

(** ** What Err can return *)

Lemma by_api_step stopped o ops :
  by_api stopped (o :: ops) = true ->
  by_api stopped [o] = true /\
  by_api (match o with
          | OpStop | OpClose => true
          | _ => stopped
          end) ops = true.
Proof.
  destruct o as [| | | |[e|]]; simpl; try done.
  intros [-> ->]%andb_true_iff. done.
Qed.

Lemma healthy_step stopped s o :
  by_api stopped [o] = true ->
  healthy stopped s ->
  healthy (match o with
           | OpStop | OpClose => true
           | _ => stopped
           end) (step s o).
Proof.
  intros Hapi (HI & Hq & Hd & He).
  split; [by apply Inv_step|].
  pose proof (inv_once s HI) as Ho.
  destruct s as [so q [cap d] on err dn t h]; simpl in *.
  destruct o as [| | | |[e|]]; simpl in Hapi; try done;
    destruct t; simpl in *; subst;
    unfold Serve, Stop, closeListener, Close, Stop, task_step, accept_loop,
      serve_returned; simpl;
    try (apply andb_true_iff in Hapi as [-> _]);
    repeat match goal with
           | |- context [if ?b then _ else _] => destruct b eqn:?
           end; simpl;
    intuition (try congruence; auto).
Qed.

Lemma healthy_run ops stopped s :
  by_api stopped ops = true ->
  healthy stopped s ->
  exists stopped', healthy stopped' (run ops s).
Proof.
  revert stopped s; induction ops as [|o ops IH]; intros stopped s Hapi Hh.
  { by exists stopped. }
  destruct (by_api_step stopped o ops Hapi) as [H1 H2].
  simpl. eapply IH; [exact H2|]. by apply healthy_step.
Qed.

(** X6.  On a transport that does not fail, a server used through [Serve],
    [Close] and the embedded Stop only ever reports nil or the
    server-stopped error from [Err]: closing the listener after the stop,
    as [Close] does, never shows as an error of the accept loop. *)
Theorem Err_is_nil_or_ErrServerStopped opts p ops :
  by_api false ops = true ->
  let s := run ops (newServer opts p) in
  Err s = None \/ Err s = Some None \/ Err s = Some (Some ErrServerStopped).
Proof.
  intros Hapi s.
  destruct (healthy_run ops false (newServer opts p) Hapi)
    as (stopped' & _ & _ & _ & He).
  { split; [apply Inv_newServer|]. split; [done|]. split; [done|]. by left. }
  fold s in He. unfold Err. destruct (serveDone s); [|by left].
  right. destruct He as [-> | ->]; auto.
Qed.

Lemma Err_is_nil_or_ErrServerStopped_witness :
  let s := run [OpServe; OpTask None; OpStop; OpTask None; OpListenerClose;
                OpTask None]
               (newServer [] initial) in
  Err s = None \/ Err s = Some None \/ Err s = Some (Some ErrServerStopped).
Proof.
  apply (Err_is_nil_or_ErrServerStopped [] initial
           [OpServe; OpTask None; OpStop; OpTask None; OpListenerClose;
            OpTask None]).
  vm_compute. reflexivity.
Defined.

(** X7.  A server that was stopped before [Serve] was ever called: the first
    [Serve] still starts the goroutine, which gives up at once, and after
    two of its steps, however interleaved with other calls, [Err] returns
    the server-stopped error. *)
Theorem Serve_after_stop_reports_ErrServerStopped opts p ops ops' :
  let s := run ops (newServer opts p) in
  quit s = true -> once s = false ->
  (2 <= task_steps ops')%nat ->
  Err (run ops' (Serve s)) = Some (Some ErrServerStopped).
Proof.
  intros s Hq Ho Hn.
  pose proof (Inv_run ops _ (Inv_newServer opts p)) as HI. fold s in HI.
  pose proof (Inv_step s OpServe HI) as HI1. simpl in HI1.
  pose proof (inv_once s HI) as Hos. pose proof (inv_done s HI) as Hds.
  assert (H1 : quit (Serve s) = true /\ once (Serve s) = true /\
               task (Serve s) = Spawned /\ serveDone (Serve s) = false).
  { destruct s as [so q [cap d] on err dn t h]; simpl in *; subst.
    by destruct t. }
  destruct H1 as (Hq1 & Ho1 & Ht1 & Hd1).
  assert (HK : stopped_before_serving (run ops' (Serve s))).
  { apply run_preserves; [apply stopped_before_serving_step|].
    unfold stopped_before_serving. by rewrite Hq1, Ht1. }
  pose proof (steps_left_run ops' (Serve s) HI1 Hq1 Ho1) as Hl.
  rewrite Ht1 in Hl. simpl in Hl.
  pose proof (Inv_run ops' _ HI1) as HI2.
  assert (Ho2 : once (run ops' (Serve s)) = true)
    by (by rewrite once_run, Ho1).
  rewrite (inv_once _ HI2) in Ho2.
  destruct HK as (_ & HK). unfold Err. rewrite (inv_done _ HI2).
  destruct (task (run ops' (Serve s))); simpl in *; try done; try lia.
  by destruct HK as (_ & ->).
Qed.

Lemma Serve_after_stop_reports_ErrServerStopped_witness :
  Err (run [OpTask None; OpServe; OpClose; OpTask None]
           (Serve (run [OpClose] (newServer [] initial)))) =
  Some (Some ErrServerStopped).
Proof.
  apply (Serve_after_stop_reports_ErrServerStopped [] initial [OpClose]
           [OpTask None; OpServe; OpClose; OpTask None]).
  - vm_compute. reflexivity.
  - vm_compute. reflexivity.
  - vm_compute. lia.
Defined.

(** ** The connection factory, again *)

(** X8.  When grpc refuses the options the call returns that error at once:
    nothing is allocated, nothing is waited for, whatever the context. *)
Theorem ClientConnContext_NewClient_error fuel rt s ctx opts w code :
  rt_check rt (applyOptions (dialOpts s opts) defaultDialOptions) =
    Some code ->
  ClientConnContext fuel rt s ctx opts w =
    Some (Returns (None, Some (ErrNewClient code)) w).
Proof.
  intros H. rewrite ClientConnContext_unfold. cbv zeta. by rewrite H.
Qed.

Lemma ClientConnContext_NewClient_error_witness :
  ClientConnContext 0
    (mkRuntime (fun o => if unaryInt o is Some _ then Some 3%nat else None)
               [(10, Ready)] (fun _ => true))
    0 Background [WithUnaryInterceptor 7] (mkWorld 4 []) =
  Some (Returns (None, Some (ErrNewClient 3)) (mkWorld 4 [])).
Proof.
  apply (ClientConnContext_NewClient_error 0
           (mkRuntime (fun o => if unaryInt o is Some _ then Some 3%nat
                                else None)
                      [(10, Ready)] (fun _ => true))
           0 Background [WithUnaryInterceptor 7] (mkWorld 4 []) 3).
  vm_compute. reflexivity.
Defined.



Lemma readyLoop_clock rt c connCtx td e :
  done_at connCtx = Some (td, e) ->
  forall fuel w cc r w',
    conns w !! c = Some cc ->
    readyLoop fuel rt (Some c) connCtx w = Some (Returns r w') ->
    clock w <= clock w' <= Z.max (clock w) td.
Proof.
  intros Hd. induction fuel as [|fuel IH]; intros w cc r w' Hc Hrun; [done|].
  simpl in Hrun. unfold bind at 1 in Hrun.
  rewrite (GetState_ok w c cc Hc) in Hrun.
  destruct (decide (state cc = Ready)) as [Hr|Hr].
  { inversion Hrun; subst. lia. }
  unfold bind at 1 in Hrun.
  rewrite (WaitForStateChange_ok rt w c cc connCtx td e Hc Hd) in Hrun.
  assert (Hexp :
    (do t <- now; ret (None, Context_Err connCtx t))
      (mkWorld (Z.max (clock w) td) (conns w)) = Some (Returns r w') ->
    clock w <= clock w' <= Z.max (clock w) td).
  { unfold bind, now, ret. intros H. inversion H; subst. simpl. lia. }
  destruct (pending cc) as [|[tc s'] rest]; [by apply Hexp|].
  destruct (done_first rt (clock w) td tc) eqn:Hf; [by apply Hexp|].
  simpl in Hrun.
  set (cc2 := mkClientConn _ _ _ _ _) in Hrun.
  set (w2 := mkWorld _ _) in Hrun.
  assert (Hc2 : conns w2 !! c = Some cc2).
  { simpl. apply list_lookup_insert_eq. by apply lookup_lt_Some in Hc. }
  specialize (IH w2 cc2 r w' Hc2 Hrun). simpl in IH.
  unfold done_first in Hf. apply orb_false_iff in Hf as [Hf _].
  apply Z.ltb_ge in Hf. lia.
Qed.



Lemma latest_cons t tc st changes :
  latest t ((tc, st) :: changes) = latest (Z.max t tc) changes.
Proof. done. Qed.

Lemma readyLoop_converges rt c connCtx td e tr post :
  done_at connCtx = Some (td, e) -> tr < td ->
  forall pre w cc fuel,
    conns w !! c = Some cc ->
    state cc <> Ready ->
    pending cc = pre ++ (tr, Ready) :: post ->
    Forall (fun change => fst change < td /\ snd change <> Ready) pre ->
    clock w < td ->
    (length pre + 2 <= fuel)%nat ->
    readyLoop fuel rt (Some c) connCtx w =
      Some (Returns (Some c, None)
              (mkWorld (latest (clock w) (pre ++ [(tr, Ready)]))
                 (<[c := mkClientConn (target cc) (dopts cc) Ready post
                                      (closed cc)]> (conns w)))).
Proof.
  intros Hd Htr.
  assert (Hnot : forall t tc, t < td -> tc < td -> done_first rt t td tc = false).
  { intros t tc Ht Htc. unfold done_first. apply orb_false_iff. split.
    - apply Z.ltb_ge. lia.
    - apply andb_false_iff. left. apply Z.eqb_neq. lia. }
  induction pre as [|[tc st] pre IH]; intros w cc fuel Hc Hr Hp HF Hclk Hfuel.
  - destruct fuel as [|[|fuel]]; simpl in Hfuel; try lia.
    cbn [readyLoop]. unfold bind at 1. rewrite (GetState_ok w c cc Hc).
    rewrite decide_False by done. unfold bind at 1.
    rewrite (WaitForStateChange_ok rt w c cc connCtx td e Hc Hd), Hp.
    simpl app. cbv iota. rewrite (Hnot _ _ Hclk Htr). cbv iota. change (negb true) with false. cbv iota.
    set (cc2 := mkClientConn (target cc) (dopts cc) Ready post (closed cc)).
    set (w2 := mkWorld (Z.max _ _) _).
    assert (Hc2 : conns w2 !! c = Some cc2).
    { simpl. apply list_lookup_insert_eq. by apply lookup_lt_Some in Hc. }
    unfold bind at 1. rewrite (GetState_ok w2 c cc2 Hc2).
    by rewrite decide_True.
  - destruct fuel as [|fuel]; simpl in Hfuel; [lia|].
    apply Forall_cons in HF as [[Htc Hst] HF]. simpl in Htc, Hst.
    cbn [readyLoop]. unfold bind at 1. rewrite (GetState_ok w c cc Hc).
    rewrite decide_False by done. unfold bind at 1.
    rewrite (WaitForStateChange_ok rt w c cc connCtx td e Hc Hd), Hp.
    simpl app. cbv iota. rewrite (Hnot _ _ Hclk Htc). cbv iota. change (negb true) with false. cbv iota.
    set (cc2 := mkClientConn (target cc) (dopts cc) st _ (closed cc)).
    set (w2 := mkWorld (Z.max _ _) _).
    assert (Hc2 : conns w2 !! c = Some cc2).
    { simpl. apply list_lookup_insert_eq. by apply lookup_lt_Some in Hc. }
    rewrite (IH w2 cc2 fuel Hc2 Hst eq_refl HF); [|simpl; lia|lia].
    simpl. by rewrite list_insert_insert_eq.
Qed.

(** X11.  A connection that becomes ready before the bound, after state changes
    none of which is Ready: the call returns that connection with a nil
    error, at the moment of the change to Ready and not later, with the
    state changes after that one still to come. *)
Theorem ClientConnContext_returns_when_ready
    fuel rt s ctx opts w td e pre tr post :
  let o := applyOptions (dialOpts s opts) defaultDialOptions in
  rt_check rt o = None ->
  done_at (WithTimeout ctx (clock w) (5 * Second)) = Some (td, e) ->
  rt_future rt = pre ++ (tr, Ready) :: post ->
  Forall (fun change => fst change < td /\ snd change <> Ready) pre ->
  tr < td -> clock w < td ->
  (length pre + 2 <= fuel)%nat ->
  ClientConnContext fuel rt s ctx opts w =
    Some (Returns (Some (length (conns w)), None)
            (mkWorld (latest (clock w) (pre ++ [(tr, Ready)]))
               (conns w ++ [mkClientConn "passthrough:///test" o Ready post
                                         false]))).
Proof.
  intros o Hcheck Hd Hfut HF Htr Hclk Hfuel.
  rewrite ClientConnContext_unfold. cbv zeta. fold o. rewrite Hcheck.
  set (cc := mkClientConn _ _ _ _ _). set (w1 := mkWorld _ _).
  assert (Hc : conns w1 !! length (conns w) = Some cc)
    by (by apply list_lookup_middle).
  rewrite (readyLoop_converges rt _ _ td e tr post Hd Htr pre w1 cc fuel);
    try done.
  simpl. by rewrite insert_last.
Qed.

Lemma ClientConnContext_returns_when_ready_witness :
  ClientConnContext 3
    (mkRuntime (fun _ => None)
               [(10, Connecting); (20, Ready); (30, TransientFailure)]
               (fun _ => true))
    0 (mkContext (Some (25, Canceled))) [] (mkWorld 0 []) =
  Some (Returns (Some 0%nat, None)
          (mkWorld 20
             [mkClientConn "passthrough:///test"
                (applyOptions (dialOpts 0 []) defaultDialOptions) Ready
                [(30, TransientFailure)] false])).
Proof.
  apply (ClientConnContext_returns_when_ready 3
           (mkRuntime (fun _ => None)
                      [(10, Connecting); (20, Ready); (30, TransientFailure)]
                      (fun _ => true))
           0 (mkContext (Some (25, Canceled))) [] (mkWorld 0 [])
           25 Canceled [(10, Connecting)] 20 [(30, TransientFailure)]).
  - reflexivity.
  - vm_compute. reflexivity.
  - reflexivity.
  - constructor; [|constructor].
    split; [vm_compute; reflexivity|simpl; discriminate].
  - vm_compute. reflexivity.
  - vm_compute. reflexivity.
  - vm_compute. lia.
Defined.

(** What a call that returned has done, whatever the number of iterations
    it was given. *)
Lemma ClientConnContext_returned fuel rt s ctx opts w r w' :
  ClientConnContext fuel rt s ctx opts w = Some (Returns r w') ->
  let o := applyOptions (dialOpts s opts) defaultDialOptions in
  let c := length (conns w) in
  match rt_check rt o with
  | Some code => r = (None, Some (ErrNewClient code)) /\ w' = w
  | None =>
      exists cc,
        conns w' !! c = Some cc /\
        length (conns w') = S (length (conns w)) /\
        (forall j, (j < c)%nat -> conns w' !! j = conns w !! j) /\
        ((r = (Some c, None) /\ state cc = Ready) \/
         (exists e, r = (None, Some (ErrContext e)) /\ state cc <> Ready))
  end.
Proof.
  intros Hrun o c.
  set (fuel' := Nat.max fuel (S (length (rt_future rt)))).
  destruct (ClientConnContext_spec fuel' rt s ctx opts w)
    as (r' & w'' & Hrun' & Hpost); [lia|].
  assert (Hrun'' : ClientConnContext fuel' rt s ctx opts w =
                   Some (Returns r w')).
  { rewrite ClientConnContext_unfold in Hrun |- *. cbv zeta in *.
    destruct (rt_check rt _); [done|].
    apply (readyLoop_mono _ _ _ fuel); [lia|done]. }
  rewrite Hrun'' in Hrun'. inversion Hrun'; subst r' w''. clear Hrun'.
  cbv zeta in Hpost. fold o c in Hpost.
  destruct (rt_check rt o) as [code|]; [done|].
  destruct Hpost as (cc & td & e & _ & Hc & Hl & Ho & _ & _ & _ & _ & Hres).
  exists cc. do 3 (split; [done|]).
  destruct Hres as [?|(? & ? & _)]; [by left|right; by exists e].
Qed.

(** X12.  Connections are independent: a later call gets a connection of its
    own, at another address, and leaves the connection an earlier call
    returned as it is (still ready). *)
Theorem ClientConnContext_connections_independent
    fuel1 rt1 s1 ctx1 opts1 fuel2 rt2 s2 ctx2 opts2 w c1 w1 r2 w2 :
  ClientConnContext fuel1 rt1 s1 ctx1 opts1 w =
    Some (Returns (Some c1, None) w1) ->
  ClientConnContext fuel2 rt2 s2 ctx2 opts2 w1 = Some (Returns r2 w2) ->
  conns w2 !! c1 = conns w1 !! c1 /\
  (exists cc1, conns w2 !! c1 = Some cc1 /\ state cc1 = Ready) /\
  (forall c2, fst r2 = Some c2 ->
              c2 <> c1 /\
              exists cc2, conns w2 !! c2 = Some cc2 /\ state cc2 = Ready).
Proof.
  intros Hrun1 Hrun2.
  pose proof (ClientConnContext_returned _ _ _ _ _ _ _ _ Hrun1) as H1.
  pose proof (ClientConnContext_returned _ _ _ _ _ _ _ _ Hrun2) as H2.
  cbv zeta in H1, H2.
  destruct (rt_check rt1 _) as [code|]; [by destruct H1|].
  destruct H1 as (cc1 & Hc1 & Hl1 & _ & Hres1).
  destruct Hres1 as [[Hr1 Hready]|(e & ? & _)]; [|done].
  inversion Hr1; subst c1.
  destruct (rt_check rt2 _) as [code|].
  - destruct H2 as [-> ->]. split; [done|]. split; [by exists cc1|]. done.
  - destruct H2 as (cc2 & Hc2 & Hl2 & Ho2 & Hres2).
    assert (Heq : conns w2 !! length (conns w) = conns w1 !! length (conns w))
      by (apply Ho2; lia).
    split; [done|]. split; [exists cc1; by rewrite Heq|].
    intros c2 Hfst.
    destruct Hres2 as [[-> Hready2]|(e & -> & _)]; [|done].
    simpl in Hfst. inversion Hfst; subst c2.
    split; [lia|]. by exists cc2.
Qed.

Lemma ClientConnContext_connections_independent_witness :
  let rt := mkRuntime (fun _ => None) [(10, Connecting); (20, Ready)]
                      (fun _ => true) in
  let cc := mkClientConn "passthrough:///test"
              (applyOptions (dialOpts 0 []) defaultDialOptions) Ready []
              false in
  [cc; cc] !! 0%nat = [cc] !! 0%nat /\
  (exists cc1, [cc; cc] !! 0%nat = Some cc1 /\ state cc1 = Ready) /\
  (forall c2, Some 1%nat = Some c2 ->
              c2 <> 0%nat /\
              exists cc2, [cc; cc] !! c2 = Some cc2 /\ state cc2 = Ready).
Proof.
  intros rt cc.
  apply (ClientConnContext_connections_independent
           3 rt 0 Background [] 3 rt 0 Background [] (mkWorld 0 [])
           0 (mkWorld 20 [cc]) (Some 1%nat, None) (mkWorld 20 [cc; cc])).
  - vm_compute. reflexivity.
  - vm_compute. reflexivity.
Defined.

(** ** Credentials *)

(** X13.  The insecure credentials are only a default: credentials among the
    caller's options replace them, the last such option winning; with no
    such option the connection is insecure. *)
Theorem caller_credentials_replace_insecure s pre c post :
  (forall o, creds (applyOptions post o) = creds o) ->
  creds (applyOptions
           (dialOpts s (pre ++ WithTransportCredentials c :: post))
           defaultDialOptions) = Some c /\
  creds (applyOptions (dialOpts s post) defaultDialOptions) = Some Insecure.
Proof.
  intros Hpost. rewrite !applyOptions_dialOpts. simpl.
  split; [|by rewrite Hpost].
  rewrite applyOptions_app. simpl. change (fold_left _ post ?o) with
    (applyOptions post o). by rewrite Hpost.
Qed.

Lemma caller_credentials_replace_insecure_witness :
  creds (applyOptions
           (dialOpts 0 ([WithTransportCredentials (TLS 1)] ++
                        WithTransportCredentials (TLS 2) ::
                        [WithUnaryInterceptor 7;
                         WithContextDialer (CustomDialer 4)]))
           defaultDialOptions) = Some (TLS 2) /\
  creds (applyOptions
           (dialOpts 0 [WithUnaryInterceptor 7;
                        WithContextDialer (CustomDialer 4)])
           defaultDialOptions) = Some Insecure.
Proof.
  apply (caller_credentials_replace_insecure 0
           [WithTransportCredentials (TLS 1)] (TLS 2)
           [WithUnaryInterceptor 7; WithContextDialer (CustomDialer 4)]).
  intros o. reflexivity.
Defined.

(** ** Connections that never get ready *)

Lemma readyLoop_never_ready rt c connCtx td e :
  done_at connCtx = Some (td, e) ->
  forall fuel w cc r w',
    conns w !! c = Some cc ->
    state cc <> Ready ->
    Forall (fun change => snd change <> Ready) (pending cc) ->
    readyLoop fuel rt (Some c) connCtx w = Some (Returns r w') ->
    r = (None, Some (ErrContext e)) /\ td <= clock w'.
Proof.
  intros Hd. induction fuel as [|fuel IH]; intros w cc r w' Hc Hr HF Hrun;
    [done|].
  simpl in Hrun. unfold bind at 1 in Hrun.
  rewrite (GetState_ok w c cc Hc) in Hrun.
  rewrite decide_False in Hrun by done.
  unfold bind at 1 in Hrun.
  rewrite (WaitForStateChange_ok rt w c cc connCtx td e Hc Hd) in Hrun.
  assert (Hexp :
    (do t <- now; ret (None, Context_Err connCtx t))
      (mkWorld (Z.max (clock w) td) (conns w)) = Some (Returns r w') ->
    r = (None, Some (ErrContext e)) /\ td <= clock w').
  { unfold bind, now, ret. simpl.
    rewrite (Context_Err_done connCtx td e) by (done || lia).
    intros H. inversion H; subst. simpl. split; [done|lia]. }
  destruct (pending cc) as [|[tc s'] rest]; [by apply Hexp|].
  destruct (done_first rt (clock w) td tc); [by apply Hexp|].
  simpl in Hrun. apply Forall_cons in HF as [Hs' HF]. simpl in Hs'.
  set (cc2 := mkClientConn _ _ _ _ _) in Hrun.
  set (w2 := mkWorld _ _) in Hrun.
  assert (Hc2 : conns w2 !! c = Some cc2).
  { simpl. apply list_lookup_insert_eq. by apply lookup_lt_Some in Hc. }
  by apply (IH w2 cc2 r w' Hc2).
Qed.

(** X14.  The loop has no case for states other than Ready: a connection whose
    state changes never include Ready (transient failure and shutdown
    included) makes the call fail with the error of the bounding context,
    and the call returns at the bound, not before. *)
Theorem ClientConnContext_never_ready_times_out
    fuel rt s ctx opts w td e :
  rt_check rt (applyOptions (dialOpts s opts) defaultDialOptions) = None ->
  done_at (WithTimeout ctx (clock w) (5 * Second)) = Some (td, e) ->
  Forall (fun change => snd change <> Ready) (rt_future rt) ->
  (length (rt_future rt) < fuel)%nat ->
  exists w',
    ClientConnContext fuel rt s ctx opts w =
      Some (Returns (None, Some (ErrContext e)) w') /\
    clock w' = Z.max (clock w) td.
Proof.
  intros Hcheck Hd HF Hfuel.
  destruct (ClientConnContext_spec fuel rt s ctx opts w Hfuel)
    as (r & w' & Hrun & _).
  pose proof Hrun as Hrun'.
  rewrite ClientConnContext_unfold in Hrun'. cbv zeta in Hrun'.
  rewrite Hcheck in Hrun'.
  set (cc := mkClientConn _ _ _ _ _) in Hrun'.
  set (w1 := mkWorld _ _) in Hrun'.
  assert (Hc : conns w1 !! length (conns w) = Some cc)
    by (by apply list_lookup_middle).
  destruct (readyLoop_never_ready rt _ _ td e Hd fuel w1 cc r w' Hc)
    as [-> Hge]; [done|done|done|].
  pose proof (readyLoop_clock rt _ _ td e Hd fuel w1 cc _ w' Hc Hrun') as Hclk.
  simpl in Hclk. exists w'. split; [done|]. lia.
Qed.

Lemma ClientConnContext_never_ready_times_out_witness :
  exists w',
    ClientConnContext 4
      (mkRuntime (fun _ => None)
                 [(10, Connecting); (20, TransientFailure); (30, Shutdown)]
                 (fun _ => true))
      0 Background [] (mkWorld 0 []) =
      Some (Returns (None, Some (ErrContext DeadlineExceeded)) w') /\
    clock w' = Z.max 0 (0 + 5 * Second).
Proof.
  apply (ClientConnContext_never_ready_times_out 4
           (mkRuntime (fun _ => None)
                      [(10, Connecting); (20, TransientFailure);
                       (30, Shutdown)]
                      (fun _ => true))
           0 Background [] (mkWorld 0 []) (0 + 5 * Second) DeadlineExceeded).
  - reflexivity.
  - reflexivity.
  - repeat constructor; simpl; discriminate.
  - vm_compute. lia.
Defined.
